(** * maptrans: descriptor-driven translation of string-keyed maps

    A shallow embedding of [maptrans.go] (package [maptrans]) and the
    properties of [Translate], [IsSimilar] and [UUIDMap].

    Modelling conventions.
    - A Go [map[string]interface{}] is an association list with one entry per
      key.  The order of the list is the order in which a [range] statement
      visits the map.  Go leaves that order unspecified: the statements are
      made for every list, hence for every order, and the scenarios that
      depend on the order are evaluated in each order.  A map that is ranged
      over several times is visited in the same order each time.
    - A dynamic value ([interface{}]) is a tagged union, [Value].  Values
      are immutable: a nil map inside a value reads as the empty map, and
      the only map that is written to is the result under construction.
    - Functions of Go's standard library and of [mapstructure] are not part
      of the package; they are Section variables ([TrimSpace], [Sprintf],
      [Decode]).
    - [ModFunc] and [InsertFunc] receive the destination map by reference and
      may write to it: they return the destination map they leave behind.
      The source map is read only.
    - [Translate] and [IsSimilar] return a pair as in Go; in the first
      component of [Translate], [None] is the literal [nil] of the error
      returns. *)

From Stdlib Require Import String Ascii List ZArith Bool Arith Lia Permutation.
Import ListNotations.
Local Open Scope string_scope.
Local Open Scope list_scope.

Set Implicit Arguments.
Set Warnings "-register-all".

(** ** Dynamic values *)

(** The dynamic types that the package inspects with a type assertion or
    hands to [mapstructure.Decode].  A nil map reads, ranges and measures as
    the empty map, and is identified with it inside values. *)
Inductive Value : Type :=
| VNil                                          (* nil *)
| VBool (b : bool)                              (* bool *)
| VInt (n : Z)                                  (* int *)
| VString (s : string)                          (* string *)
| VMap (m : list (string * Value))              (* map[string]interface{} *)
| VMaps (ms : list (list (string * Value)))     (* []map[string]interface{} *)
| VSlice (vs : list Value)                      (* []interface{} *)
| VStrings (ss : list string).                  (* []string *)

(** [map[string]interface{}] holding data. *)
Definition Record : Type := list (string * Value).

(** ** Go maps as association lists *)

Section GoMap.
Variable V : Type.

(** [v, ok := m[k]] *)
Fixpoint mapGet (k : string) (m : list (string * V)) : option V :=
  match m with
  | [] => None
  | (k', v) :: m' => if String.eqb k' k then Some v else mapGet k m'
  end.

(** [m[k] = v]: the entry of [k] is replaced where it stands, a new key is
    added. *)
Fixpoint mapSet (k : string) (v : V) (m : list (string * V))
  : list (string * V) :=
  match m with
  | [] => [(k, v)]
  | (k', v') :: m' =>
      if String.eqb k' k then (k, v) :: m' else (k', v') :: mapSet k v m'
  end.

Definition keys (m : list (string * V)) : list string := map fst m.

(** The invariant of a Go map: one entry per key. *)
Definition uniqueKeys (m : list (string * V)) : Prop := NoDup (keys m).
End GoMap.

(** ** Errors *)

(** The three error types of the package; [errorString] stands for the
    errors built by [errors.New] and [fmt.Errorf] and for the errors of
    caller-supplied functions, which the package only renders with
    [Error()] or passes on. *)
Inductive error : Type :=
| InternalError (Reason : string)
| MissingAttributeError (Name : string)
| InvalidPropertyError (Name Reason : string)
| errorString (s : string).

Definition NewInternalError (reason : string) : error := InternalError reason.
Definition NewMissingAttributeError (name : string) : error :=
  MissingAttributeError name.
Definition NewInvalidProp (name reason : string) : error :=
  InvalidPropertyError name reason.

(** ** Descriptions *)

(** [TranslationType] is an [int] used as an enum. *)
Definition TranslationType : Type := Z.
Definition CustomTranslation : TranslationType := 0%Z.
Definition MapTranslation : TranslationType := 1%Z.
Definition MapArrayTranslation : TranslationType := 2%Z.
Definition ModifyTranslation : TranslationType := 3%Z.
Definition InsertTranslation : TranslationType := 4%Z.

(** [MapFunc]: value to value, or an error. *)
Definition MapFuncT : Type := Value -> Value * option error.

(** [ModFunc src dst value]: writes to [dst]; the first component is [dst]
    after the call. *)
Definition ModFuncT : Type := Record -> Record -> Value -> Record * option error.

(** [InsertFunc src dst name]: may write to [dst] as well; returns [dst]
    after the call and the value to insert. *)
Definition InsertFuncT : Type :=
Record -> Record -> string -> Record * (Value * option error).

(** [Description], over the type [E] of the entries of a description map;
    a nil function or map is [None]. *)
Record DescriptionOf (E : Type) : Type := mkDescription {
  InsertFunc : option InsertFuncT;
  Mandatory : bool;
  MapFunc : option MapFuncT;
  ModFunc : option ModFuncT;
  SubTranslation : option (list (string * E));
  TargetName : string;
  Type_ : TranslationType
}.

(** The values found in a description map: ["name": "newName"],
    ["name": Description{...}], or anything else (a programming error). *)
Inductive Entry : Type :=
| EString (s : string)
| EDescription (d : DescriptionOf Entry)
| EOther (v : Value).

Definition Description : Type := DescriptionOf Entry.

(** [map[string]interface{}] holding a description; [None] is the nil map. *)
Definition Descr : Type := option (list (string * Entry)).

(** Nesting depth of a description. *)
Fixpoint depthEntry (e : Entry) : nat :=
  match e with
  | EDescription d =>
      match SubTranslation d with
      | None => 0
      | Some l =>
          S ((fix depthEntries (l : list (string * Entry)) : nat :=
                match l with
                | [] => 0
                | (_, e') :: l' => Nat.max (depthEntry e') (depthEntries l')
                end) l)
      end
  | _ => 0
  end.

Fixpoint depthEntries (l : list (string * Entry)) : nat :=
  match l with
  | [] => 0
  | (_, e) :: l' => Nat.max (depthEntry e) (depthEntries l')
  end.

Definition depth (d : Descr) : nat :=
  match d with
  | None => 0
  | Some l => S (depthEntries l)
  end.

(** ** Regular expressions *)

(** The fragment of [regexp] syntax in which [validUUID] is written: after
    the anchor [^], a sequence of atoms, each repeated a fixed number of
    times; an atom is a literal byte or a bracket expression made of
    ranges.  There is no closing [$]. *)
Inductive atom : Type :=
| Lit (c : ascii)
| Class (ranges : list (ascii * ascii)).

Definition Regexp : Type := list (atom * nat).

Definition inRange (c : ascii) (r : ascii * ascii) : bool :=
  (N_of_ascii (fst r) <=? N_of_ascii c)%N && (N_of_ascii c <=? N_of_ascii (snd r))%N.

Definition matchAtom (a : atom) (c : ascii) : bool :=
  match a with
  | Lit c' => Ascii.eqb c' c
  | Class ranges => existsb (inRange c) ranges
  end.

(** [a{n}] at the head of [s]: what is left of [s] after the match. *)
Fixpoint matchRepeat (a : atom) (n : nat) (s : string) : option string :=
  match n with
  | O => Some s
  | S n' =>
      match s with
      | EmptyString => None
      | String c s' => if matchAtom a c then matchRepeat a n' s' else None
      end
  end.

(** [re.MatchString(s)] for [re] anchored at the start only. *)
Fixpoint MatchString (re : Regexp) (s : string) : bool :=
  match re with
  | [] => true
  | (a, n) :: re' =>
      match matchRepeat a n s with
      | Some s' => MatchString re' s'
      | None => false
      end
  end.

(** [[0-9a-fA-F]] *)
Definition hexDigit : atom :=
  Class [("0"%char, "9"%char); ("a"%char, "f"%char); ("A"%char, "F"%char)].

(** [^[0-9a-fA-F]{8}-[0-9a-fA-F]{4}-[0-9a-fA-F]{4}-[0-9a-fA-F]{4}-[0-9a-fA-F]{12}] *)
Definition validUUID : Regexp :=
  [(hexDigit, 8); (Lit "-"%char, 1); (hexDigit, 4); (Lit "-"%char, 1);
   (hexDigit, 4); (Lit "-"%char, 1); (hexDigit, 4); (Lit "-"%char, 1);
   (hexDigit, 12)].

(** ** Control flow of a [for ... range] body *)

(** A loop body either goes on to the next element with the state it leaves
    ([continue], or the end of the body), or makes the enclosing function
    return. *)
Inductive iteration (St Ret : Type) : Type :=
| Next (s : St)
| Return (r : Ret).
Arguments Next {St Ret} s.
Arguments Return {St Ret} r.

(** [for _, x := range xs { body }], in the order of [xs]. *)
Fixpoint rangeOver {X St Ret : Type} (body : St -> X -> iteration St Ret)
    (xs : list X) (s : St) : iteration St Ret :=
  match xs with
  | [] => Next s
  | x :: xs' =>
      match body s x with
      | Next s' => rangeOver body xs' s'
      | Return r => Return r
      end
  end.

(** [for i, x := range xs]: the elements with their indices. *)
Definition indexed {X : Type} (xs : list X) : list (nat * X) :=
  combine (seq 0 (length xs)) xs.

(** [xs[i] = x], for [i] below [len(xs)]. *)
Fixpoint sliceSet {X : Type} (i : nat) (x : X) (xs : list X) : list X :=
  match xs, i with
  | [], _ => []
  | _ :: xs', O => x :: xs'
  | y :: xs', S i' => y :: sliceSet i' x xs'
  end.

(** Arguments of a formatting call. *)
Inductive fmtArg : Type :=
| ArgString (s : string)
| ArgValue (v : Value)
| ArgEntry (e : Entry)
| ArgMap (m : Record)
| ArgInt (n : Z)
| ArgError (e : error).

(** What [Translate] returns: the map ([None] is the literal [nil] of the
    error paths) and the error ([None] is [nil]). *)
Definition Translated : Type := (option Record * option error)%type.

(** The entries of a map that may be nil: a nil map reads as the empty
    map. *)
Definition asMap {V : Type} (m : option (list (string * V)))
  : list (string * V) :=
  match m with
  | Some r => r
  | None => []
  end.

(** [md.TargetName = name], on the local copy [md]. *)
Definition withTargetName (name : string) (md : Description) : Description :=
  mkDescription (InsertFunc md) (Mandatory md) (MapFunc md) (ModFunc md)
    (SubTranslation md) name (Type_ md).

(** ** The package *)

Section Maptrans.

(** [strings.TrimSpace] *)
Variable TrimSpace : string -> string.
(** [fmt.Sprintf] *)
Variable Sprintf : string -> list fmtArg -> string.
(** [mapstructure.Decode(value, &maps)] for [maps] of type
    [[]map[string]interface{}]: the error, or the decoded maps. *)
Variable Decode : Value -> error + list Record.

(** The [Error()] methods. *)
Definition Error (e : error) : string :=
  match e with
  | InternalError Reason => Sprintf "internal error: %s" [ArgString Reason]
  | MissingAttributeError Name =>
      Sprintf "missing mandatory attribute '%s'" [ArgString Name]
  | InvalidPropertyError Name Reason =>
      Sprintf "property '%s' is invalid: %s" [ArgString Name; ArgString Reason]
  | errorString s => s
  end.

(** [fmt.Errorf] *)
Definition Errorf (format : string) (args : list fmtArg) : error :=
  errorString (Sprintf format args).

(** *** Value mappers *)

Definition IDMap (src : Value) : Value * option error := (src, None).

Definition StringMap (src : Value) : Value * option error :=
  match src with
  | VString srcStr => (VString (TrimSpace srcStr), None)
  | _ => (VString EmptyString,
          Some (Errorf "invalid type %T for %v" [ArgValue src; ArgValue src]))
  end.

Definition UUIDMap (src : Value) : Value * option error :=
  match src with
  | VString srcStr =>
      let srcStr := TrimSpace srcStr in
      if negb (MatchString validUUID srcStr) then
        (VString EmptyString,
         Some (Errorf "%v is not a valid UUID" [ArgString srcStr]))
      else (VString srcStr, None)
  | _ => (VString EmptyString,
          Some (Errorf "%v is not a string" [ArgString EmptyString]))
  end.

(** *** Translate *)

Section TranslateBody.

(** The recursive calls of [Translate]. *)
Variable Translate_ : Record -> Descr -> Translated.

(** First loop: is a mandatory field missing?  The body of
    [for k, v := range description]. *)
Definition checkMandatory (src : Record) (result : Record)
    (kv : string * Entry) : iteration Record Translated :=
  let (k, v) := kv in
  match v with
  | EString _ => Next result
  | EDescription md =>
      if Mandatory md then
        match mapGet k src with
        | None => Return (None, Some (NewMissingAttributeError k))
        | Some _ => Next result
        end
      else Next result
  | EOther _ =>
      Return (None, Some (NewInternalError
                            (Sprintf "%v is not Description" [ArgEntry v])))
  end.

(** The loop of [MapArrayTranslation]:
    [for i, val := range srcMaps { ...; res[i] = trans }]. *)
Definition translateElement (sub : Descr) (res : list Record)
    (ival : nat * Record) : iteration (list Record) Translated :=
  let (i, val) := ival in
  match Translate_ val sub with
  | (_, Some err) => Return (None, Some err)
  | (trans, None) => Next (sliceSet i (asMap trans) res)
  end.

(** Second loop: the body of [for attr, value := range src]. *)
Definition translateField (src : Record)
    (description : list (string * Entry)) (result : Record)
    (av : string * Value) : iteration Record Translated :=
  let (attr, value) := av in
  match mapGet attr description with
  | None => Next result
  | Some mapDescr =>
      match mapDescr with
      | EString stringConversion =>
          match StringMap value with
          | (_, Some err) =>
              Return (Some result, Some (NewInvalidProp attr (Error err)))
          | (dstStr, None) => Next (mapSet stringConversion dstStr result)
          end
      | EOther _ =>
          Return (None, Some (NewInternalError
                    (Sprintf "%v is not a Description" [ArgEntry mapDescr])))
      | EDescription md =>
          let md :=
            if String.eqb (TargetName md) EmptyString
            then withTargetName attr md else md in
          if Z.eqb (Type_ md) CustomTranslation then
            match MapFunc md with
            | None =>
                Return (None, Some (NewInternalError
                          ("missing translation func for " ++ attr)))
            | Some mapFunc =>
                match mapFunc value with
                | (_, Some err) =>
                    Return (None, Some (NewInvalidProp attr (Error err)))
                | (dstStr, None) =>
                    Next (mapSet (TargetName md) dstStr result)
                end
            end
          else if Z.eqb (Type_ md) MapTranslation then
            match value with
            | VMap srcMap =>
                match Translate_ srcMap (SubTranslation md) with
                | (_, Some err) => Return (None, Some err)
                | (trans, None) =>
                    Next (mapSet (TargetName md) (VMap (asMap trans)) result)
                end
            | _ =>
                Return (None, Some (NewInternalError
                          (Sprintf "invalid type for %v: %T"
                             [ArgValue value; ArgValue value])))
            end
          else if Z.eqb (Type_ md) MapArrayTranslation then
            match Decode value with
            | inl err => Return (None, Some (NewInternalError (Error err)))
            | inr srcMaps =>
                let res := repeat ([] : Record) (length srcMaps) in
                match rangeOver (translateElement (SubTranslation md))
                        (indexed srcMaps) res with
                | Return r => Return r
                | Next res => Next (mapSet (TargetName md) (VMaps res) result)
                end
            end
          else if Z.eqb (Type_ md) ModifyTranslation then
            match ModFunc md with
            | None =>
                Return (None, Some (NewInternalError
                          ("missing translation func for " ++ attr)))
            | Some modFunc =>
                match modFunc src result value with
                | (_, Some err) =>
                    Return (None, Some (NewInvalidProp attr (Error err)))
                | (result, None) => Next result
                end
            end
          else if Z.eqb (Type_ md) InsertTranslation then
            Next result
          else
            Return (None, Some (NewInternalError "Invalid Translation type"))
      end
  end.

(** Third loop: should a value be inserted?  The body of
    [for attr, value := range description]. *)
Definition insertMissing (src : Record) (result : Record)
    (av : string * Entry) : iteration Record Translated :=
  let (attr, value) := av in
  match value with
  | EString _ => Next result
  | EOther _ =>
      Return (None, Some (NewInternalError
                (Sprintf "%v is not a Description" [ArgEntry value])))
  | EDescription md =>
      if negb (Z.eqb (Type_ md) InsertTranslation) then Next result
      else
        match InsertFunc md with
        | None =>
            Return (None, Some (NewInternalError
                      ("missing translation func for " ++ attr)))
        | Some insertFunc =>
            match mapGet (TargetName md) result with
            | Some _ => Next result
            | None =>
                match insertFunc src result attr with
                | (_, (_, Some err)) => Return (None, Some err)
                | (result, (val, None)) =>
                    Next (mapSet (TargetName md) val result)
                end
            end
        end
  end.

Definition TranslateBody (src : Record) (description : Descr) : Translated :=
  match description with
  | None => (Some src, None)
  | Some description =>
      let result : Record := [] in
      match rangeOver (checkMandatory src) description result with
      | Return r => r
      | Next result =>
          match rangeOver (translateField src description) src result with
          | Return r => r
          | Next result =>
              match rangeOver (insertMissing src) description result with
              | Return r => r
              | Next result => (Some result, None)
              end
          end
      end
  end.

End TranslateBody.

(** [Translate] calls itself on sub-descriptions only, which are values
    nested in the description: the recursion is bounded by the depth of
    the description ([Translate_unfold] below gives the equation of the
    source). *)
Fixpoint TranslateAt (n : nat) (src : Record) (description : Descr)
  : Translated :=
  match n with
  | O => (None, Some (NewInternalError "unreachable"))
  | S n' => TranslateBody (TranslateAt n') src description
  end.

Definition Translate (src : Record) (description : Descr) : Translated :=
  TranslateAt (S (depth description)) src description.

(** *** IsSimilar *)

(** What [IsSimilar] returns. *)
Definition Similar : Type := (bool * option error)%type.

Section IsSimilarBody.

(** The recursive calls of [IsSimilar]. *)
Variable IsSimilar_ : Record -> Record -> Descr -> Similar.

(** The loop of [MapArrayTranslation]:
    [for i, val := range srcMaps { IsSimilar(val, dstMaps[i], ...) }]. *)
Definition similarElement (dstMaps : list Record) (sub : Descr) (_ : unit)
    (ival : nat * Record) : iteration unit Similar :=
  let (i, val) := ival in
  match IsSimilar_ val (nth i dstMaps []) sub with
  | (false, err) => Return (false, err)
  | (true, _) => Next tt
  end.

(** The body of [for k, vSrc := range src]. *)
Definition similarField (dst : Record) (descr : Descr) (_ : unit)
    (kv : string * Value) : iteration unit Similar :=
  let (k, vSrc) := kv in
  match mapGet k (asMap descr) with
  | None => Next tt
  | Some mapDescr =>
      match mapDescr with
      | EString stringConversion =>
          match vSrc with
          | VString srcStr =>
              match mapGet stringConversion dst with
              | Some (VString dstStr) =>
                  if negb (String.eqb srcStr dstStr) then
                    Return (false,
                            Some (Errorf "Values %s and %s don't match"
                                    [ArgString srcStr; ArgString dstStr]))
                  else Next tt
              | _ =>
                  Return (false,
                          Some (NewInternalError
                                  (Sprintf "Missing value for %s"
                                     [ArgString stringConversion])))
              end
          | _ =>
              Return (false,
                      Some (NewInternalError
                              (Sprintf "Invalid description value %v"
                                 [ArgValue vSrc])))
          end
      | EOther _ =>
          Return (false,
                  Some (NewInternalError
                          (Sprintf "invalid description %v"
                             [ArgEntry mapDescr])))
      | EDescription md =>
          if Z.eqb (Type_ md) MapTranslation then
            match vSrc with
            | VMap srcMap =>
                match mapGet (TargetName md) dst with
                | None =>
                    Return (false,
                            Some (Errorf "Missing value for %s in %v"
                                    [ArgString (TargetName md); ArgMap dst]))
                | Some dstMapVal =>
                    match dstMapVal with
                    | VMap dstMap =>
                        match IsSimilar_ srcMap dstMap (SubTranslation md) with
                        | (false, err) => Return (false, err)
                        | (true, _) => Next tt
                        end
                    | _ =>
                        Return (false,
                                Some (Errorf "Invalid Type for %s: %T"
                                        [ArgString (TargetName md);
                                         ArgValue dstMapVal]))
                    end
                end
            | _ =>
                Return (false,
                        Some (Errorf "Invalid source object %v"
                                [ArgValue vSrc]))
            end
          else if Z.eqb (Type_ md) MapArrayTranslation then
            match Decode vSrc with
            | inl err =>
                Return (false,
                        Some (Errorf "Invalid source object %v: %v"
                                [ArgValue vSrc; ArgError err]))
            | inr srcMaps =>
                match mapGet (TargetName md) dst with
                | None =>
                    Return (false,
                            Some (Errorf "Missing value for %s in %v"
                                    [ArgString (TargetName md); ArgMap dst]))
                | Some dstVal =>
                    match Decode dstVal with
                    | inl _ =>
                        Return (false,
                                Some (Errorf "Invalid destination object %v"
                                        [ArgValue dstVal]))
                    | inr dstMaps =>
                        if negb (Nat.eqb (length srcMaps) (length dstMaps))
                        then
                          Return (false,
                                  Some (Errorf
                                          "Source and destination length: %d!= %d"
                                          [ArgInt (Z.of_nat (length srcMaps));
                                           ArgInt (Z.of_nat (length dstMaps))]))
                        else
                          match rangeOver
                                  (similarElement dstMaps (SubTranslation md))
                                  (indexed srcMaps) tt with
                          | Return r => Return r
                          | Next _ => Next tt
                          end
                    end
                end
            end
          else
            Return (false,
                    Some (Errorf "Unsupported translation type %v"
                            [ArgInt (Type_ md)]))
      end
  end.

Definition IsSimilarBody (src dst : Record) (descr : Descr) : Similar :=
  match rangeOver (similarField dst descr) src tt with
  | Return r => r
  | Next _ => (true, None)
  end.

End IsSimilarBody.

(** As for [Translate], the recursion follows the nesting of the
    description ([IsSimilar_unfold] below). *)
Fixpoint IsSimilarAt (n : nat) (src dst : Record) (descr : Descr) : Similar :=
  match n with
  | O => (false, Some (NewInternalError "unreachable"))
  | S n' => IsSimilarBody (IsSimilarAt n') src dst descr
  end.

Definition IsSimilar (src dst : Record) (descr : Descr) : Similar :=
  IsSimilarAt (S (depth descr)) src dst descr.

End Maptrans.

(** ** Reference instances of the library functions

    Instances of the Section variables at which the statements below are
    evaluated. *)

(** The white space of ASCII: tab, line feed, vertical tab, form feed,
    carriage return and space. *)
Definition isAsciiSpace (c : ascii) : bool :=
  match N_of_ascii c with
  | 9%N | 10%N | 11%N | 12%N | 13%N | 32%N => true
  | _ => false
  end.

Fixpoint trimLeft (s : string) : string :=
  match s with
  | EmptyString => EmptyString
  | String c s' => if isAsciiSpace c then trimLeft s' else s
  end.

Fixpoint trimRight (s : string) : string :=
  match s with
  | EmptyString => EmptyString
  | String c s' =>
      match trimRight s' with
      | EmptyString => if isAsciiSpace c then EmptyString else String c EmptyString
      | r => String c r
      end
  end.

(** [strings.TrimSpace] on strings of ASCII bytes. *)
Definition trimSpaceASCII (s : string) : string := trimRight (trimLeft s).

(** A rendering that leaves the verbs of the format unexpanded. *)
Definition sprintfVerbatim (format : string) (_ : list fmtArg) : string := format.

(** Decoding of a [[]map[string]interface{}] and of a [[]interface{}] whose
    elements are maps. *)
Definition decodeMaps (v : Value) : error + list Record :=
  match v with
  | VMaps ms => inr ms
  | VSlice vs =>
      fold_right
        (fun v acc =>
           match v, acc with
           | VMap m, inr ms => inr (m :: ms)
           | _, inl e => inl e
           | _, inr _ => inl (errorString "expected a map")
           end) (inr []) vs
  | _ => inl (errorString "expected a slice of maps")
  end.

(** ** Scenarios of [maptrans_test.go] *)

(** [TestMapMap] *)
Definition mapMapDescr : Descr := Some [("A1", EString "a1")].
Definition mapMapSrc : Record :=
  [("A1", VString "foo"); ("C1", VString "missing")].

(** [TestMapTranslation] *)
Definition mapTranslationRule : Description :=
  mkDescription None false None None
    (Some [("E11", EString "e11"); ("E12", EString "e12")])
    "e1" MapTranslation.
Definition mapTranslationDescr : Descr :=
  Some [("E1", EDescription mapTranslationRule)].
Definition mapTranslationSrc : Record :=
  [("E1", VMap [("E11", VString "is_e11"); ("E12", VString "is_e12")])].

(** [TestMapArrayTranslation] *)
Definition mapArrayRule : Description :=
  mkDescription None false None None
    (Some [("AA", EString "a"); ("BB", EString "b")])
    "m" MapArrayTranslation.
Definition mapArrayDescr : list (string * Entry) :=
  [("M", EDescription mapArrayRule)].
Definition mapArrayValue : Value :=
  VMaps [[("AA", VString "1"); ("BB", VString "1")];
         [("AA", VString "2"); ("BB", VString "3")]].
Definition mapArraySrc : Record := [("M", mapArrayValue)].

(** After [TestInsertTranslation]: the function writes its third argument
    under ["A"] in the destination.  The function of the test returns the
    destination map itself, which then contains itself; the function here
    returns the string it wrote. *)
Definition insFunc : InsertFuncT :=
  fun _ o v => (mapSet "A" (VString v) o, (VString v, None)).
Definition insertRule : Description :=
  mkDescription (Some insFunc) false None None None "a" InsertTranslation.
Definition insertDescr : list (string * Entry) :=
  [("Hello", EDescription insertRule)].
Definition insertSrc : Record := [("B", VInt 2)].

(** [TestMandatoryOption] *)
Definition mandatoryRule : Description :=
  mkDescription None true (Some (StringMap trimSpaceASCII sprintfVerbatim))
    None None "a1" CustomTranslation.
Definition mandatoryDescr : list (string * Entry) :=
  [("X", EString "Y"); ("A1", EDescription mandatoryRule)].
Definition mandatorySrc : Record := [("X", VString "X")].

(** [TestIdMapTranslation], with the rename of [TestMapMap] beside it *)
Definition idMapRule : Description :=
  mkDescription None false (Some IDMap) None None "g1" CustomTranslation.
Definition idMapDescr : list (string * Entry) :=
  [("A1", EString "a1"); ("G1", EDescription idMapRule)].
Definition idMapSrc : Record :=
  [("A1", VString "foo"); ("G1", VMap [("a", VString "b")])].

(** ** Further scenarios *)

(** Two insertions with the same target name. *)
Definition insertFromX : Description :=
  mkDescription (Some (fun _ o _ => (o, (VString "from X", None)))) false
    None None None "a" InsertTranslation.
Definition insertFromY : Description :=
  mkDescription (Some (fun _ o _ => (o, (VString "from Y", None)))) false
    None None None "a" InsertTranslation.

(** Two mandatory fields. *)
Definition mandatoryA : Description :=
  mkDescription None true (Some IDMap) None None "a" CustomTranslation.
Definition mandatoryB : Description :=
  mkDescription None true (Some IDMap) None None "b" CustomTranslation.

(** A [ModFunc] that copies the field ["C1"] of the source. *)
Definition copyC1 : ModFuncT :=
  fun src dst _ =>
    match mapGet "C1" src with
    | Some v => (mapSet "c1" v dst, None)
    | None => (dst, None)
    end.
Definition copyRule : Description :=
  mkDescription None false None (Some copyC1) None "a1" ModifyTranslation.

(** ** Vocabulary of the statements *)

(** What the function returns when a loop ends: the value of a [return]
    inside the loop, or the result the loop leaves with a nil error. *)
Definition returned (it : iteration Record Translated) : Translated :=
  match it with
  | Return r => r
  | Next result => (Some result, None)
  end.

(** The hexadecimal digits, in either case. *)
Definition hexDigits : list ascii :=
  list_ascii_of_string "0123456789abcdefABCDEF".

(** A group of [n] hexadecimal digits. *)
Definition hexGroup (n : nat) (g : string) : Prop :=
  String.length g = n /\ Forall (fun c => In c hexDigits) (list_ascii_of_string g).

(** The canonical form of a UUID: five groups of 8, 4, 4, 4 and 12
    hexadecimal digits, separated by hyphens. *)
Definition canonicalUUID (u : string) : Prop :=
  exists g1 g2 g3 g4 g5,
    hexGroup 8 g1 /\ hexGroup 4 g2 /\ hexGroup 4 g3 /\ hexGroup 4 g4 /\
    hexGroup 12 g5 /\
    u = (g1 ++ "-" ++ g2 ++ "-" ++ g3 ++ "-" ++ g4 ++ "-" ++ g5)%string.

(** An entry that the first loop passes over. *)
Definition passesCheck (src : Record) (kv : string * Entry) : Prop :=
  match snd kv with
  | EString _ => True
  | EDescription md => Mandatory md = true -> mapGet (fst kv) src <> None
  | EOther _ => False
  end.

(** An entry that is not an [InsertTranslation]. *)
Definition notInsertion (kv : string * Entry) : Prop :=
  match snd kv with
  | EString _ => True
  | EDescription md => Type_ md <> InsertTranslation
  | EOther _ => False
  end.

(** A description without [ModifyTranslation] and [InsertTranslation]: no
    function that receives the whole source map is called. *)
Definition withoutHooks (description : list (string * Entry)) : Prop :=
  Forall (fun kv : string * Entry =>
            match snd kv with
            | EDescription md =>
                Type_ md <> ModifyTranslation /\ Type_ md <> InsertTranslation
            | _ => True
            end) description.

(** The name under which the second loop stores the field of an entry. *)
Definition targetOf (kv : string * Entry) : string :=
  match snd kv with
  | EString stringConversion => stringConversion
  | EDescription md =>
      if String.eqb (TargetName md) EmptyString then fst kv else TargetName md
  | EOther _ => fst kv
  end.

(** What holds of the result so far holds of the map that comes out of a
    loop, if every iteration keeps it. *)
Definition keeps {X : Type} (P : Record -> Prop)
    (body : Record -> X -> iteration Record Translated) (x : X) : Prop :=
  forall result, P result ->
    match body result x with
    | Next result' => P result'
    | Return (Some result', _) => P result'
    | Return (None, _) => True
    end.

(** A description made of renames, [MapTranslation] and
    [MapArrayTranslation] only, at every level, with target names that are
    set and, within one description, pairwise distinct. *)
Fixpoint structuralEntry (e : Entry) : Prop :=
  match e with
  | EString _ => True
  | EDescription md =>
      (Type_ md = MapTranslation \/ Type_ md = MapArrayTranslation) /\
      TargetName md <> EmptyString /\
      match SubTranslation md with
      | None => True
      | Some l =>
          NoDup (map targetOf l) /\
          (fix structuralEntries (l : list (string * Entry)) : Prop :=
             match l with
             | [] => True
             | (_, e') :: l' => structuralEntry e' /\ structuralEntries l'
             end) l
      end
  | EOther _ => False
  end.

Fixpoint structuralEntries (l : list (string * Entry)) : Prop :=
  match l with
  | [] => True
  | (_, e) :: l' => structuralEntry e /\ structuralEntries l'
  end.

Definition structural (d : Descr) : Prop :=
  match d with
  | None => True
  | Some l => NoDup (map targetOf l) /\ structuralEntries l
  end.

Section Sources.
Variable TrimSpace : string -> string.
Variable Decode : Value -> error + list Record.

(** A source in which, as far as the description reaches, every map has one
    entry per key and the strings of the renamed fields have no white space
    to trim. *)
Inductive trimmedFor : Record -> Descr -> Prop :=
| trimmedFor_nil (src : Record) : trimmedFor src None
| trimmedFor_entries (src : Record) (l : list (string * Entry)) :
    uniqueKeys src ->
    (forall k s t,
        In (k, VString s) src -> mapGet k l = Some (EString t) ->
        TrimSpace s = s) ->
    (forall k m md,
        In (k, VMap m) src -> mapGet k l = Some (EDescription md) ->
        Type_ md = MapTranslation ->
        trimmedFor m (SubTranslation md)) ->
    (forall k v md ms m,
        In (k, v) src -> mapGet k l = Some (EDescription md) ->
        Type_ md = MapArrayTranslation ->
        Decode v = inr ms -> In m ms ->
        trimmedFor m (SubTranslation md)) ->
    trimmedFor src (Some l).

(** What the second loop stores for a field [value] described by [e], for
    the recursive calls [T]. *)
Definition fieldImage (T : Record -> Descr -> Translated) (value : Value)
    (e : Entry) (w : Value) : Prop :=
  match e with
  | EString _ => exists s, value = VString s /\ w = VString (TrimSpace s)
  | EDescription md =>
      (Type_ md = MapTranslation /\
       exists m trans,
         value = VMap m /\ T m (SubTranslation md) = (Some trans, None) /\
         w = VMap trans) \/
      (Type_ md = MapArrayTranslation /\
       exists ms,
         Decode value = inr ms /\
         Forall (fun m => snd (T m (SubTranslation md)) = None) ms /\
         w = VMaps (map (fun m => asMap (fst (T m (SubTranslation md)))) ms))
  | EOther _ => False
  end.

End Sources.

(** ** The other functions of the package *)

(** The fragment of [regexp] syntax in which [validID] is written: between
    the anchors [^] and [$], a sequence of atoms, each followed by [+] or
    [*]. *)
Inductive quantifier : Type :=
| OneOrMore                                     (* + *)
| ZeroOrMore.                                   (* * *)

Definition Pattern : Type := list (atom * quantifier).

(** [re.MatchString(s)] for [re] anchored at both ends: some way of
    sharing out [s] among the atoms exhausts both. *)
Fixpoint MatchWhole (re : Pattern) : string -> bool :=
  match re with
  | [] => fun s => match s with EmptyString => true | String _ _ => false end
  | (a, q) :: re' =>
      let more :=
        fix more (s : string) : bool :=
          MatchWhole re' s ||
          match s with
          | EmptyString => false
          | String c s' => matchAtom a c && more s'
          end in
      match q with
      | ZeroOrMore => more
      | OneOrMore =>
          fun s =>
            match s with
            | EmptyString => false
            | String c s' => matchAtom a c && more s'
            end
      end
  end.

(** [[a-zA-Z_]] and [[0-9a-zA-Z_]] *)
Definition identStart : atom :=
  Class [("a"%char, "z"%char); ("A"%char, "Z"%char); ("_"%char, "_"%char)].
Definition identChar : atom :=
  Class [("0"%char, "9"%char); ("a"%char, "z"%char); ("A"%char, "Z"%char);
         ("_"%char, "_"%char)].

(** [^[a-zA-Z_]+[0-9a-zA-Z_]*$] *)
Definition validID : Pattern :=
  [(identStart, OneOrMore); (identChar, ZeroOrMore)].

Section Mappers.
Variable TrimSpace : string -> string.
Variable Sprintf : string -> list fmtArg -> string.
(** [strconv.ParseBool] *)
Variable ParseBool : string -> bool * option error.

Definition IdentifierMap (src : Value) : Value * option error :=
  match src with
  | VString srcStr =>
      if negb (MatchWhole validID srcStr) then
        (VString EmptyString,
         Some (Errorf Sprintf "%s is not a valid identifier" [ArgString srcStr]))
      else (VString (TrimSpace srcStr), None)
  | _ => (VString EmptyString,
          Some (Errorf Sprintf "%v is not a string" [ArgString EmptyString]))
  end.

Definition BoolMap (src : Value) : Value * option error :=
  match src with
  | VBool val => (VBool val, None)
  | VString strVal =>
      match ParseBool strVal with
      | (_, Some err) =>
          (VBool false,
           Some (Errorf Sprintf "invalid value '%s' for boolean"
                   [ArgString strVal]))
      | (result, None) => (VBool result, None)
      end
  | _ => (VString EmptyString, Some (errorString "invalid type"))
  end.

Definition BoolToStrMap (src : Value) : Value * option error :=
  match BoolMap src with
  | (_, Some err) => (VNil, Some err)
  | (b, None) =>
      if match b with VBool val => val | _ => false end
      then (VString "True", None)
      else (VString "False", None)
  end.

End Mappers.

(** [MissingKeys], the helper of [maptrans_test.go]:
    [for _, v := range fields { if _, found := src[v]; !found { result = append(result, v) } }]. *)
Definition MissingKeys (src : Record) (fields : list string) : list string :=
  fold_left
    (fun result v =>
       match mapGet v src with
       | Some _ => result
       | None => result ++ [v]
       end) fields [].

(** [strconv.ParseBool]: the twelve spellings it accepts. *)
Definition parseBoolGo (str : string) : bool * option error :=
  if existsb (String.eqb str) ["1"; "t"; "T"; "true"; "TRUE"; "True"]
  then (true, None)
  else if existsb (String.eqb str) ["0"; "f"; "F"; "false"; "FALSE"; "False"]
  then (false, None)
  else (false, Some (errorString "strconv.ParseBool: invalid syntax")).

(** ** Vocabulary of the further statements *)

(** The letters and the underscore; with the digits. *)
Definition isIdentStart (c : ascii) : Prop :=
  In c (list_ascii_of_string
          "abcdefghijklmnopqrstuvwxyzABCDEFGHIJKLMNOPQRSTUVWXYZ_").
Definition isIdentChar (c : ascii) : Prop :=
  isIdentStart c \/ In c (list_ascii_of_string "0123456789").

(** An identifier, in the words of [doc.go]: it starts with a letter or an
    underscore and has only letters, digits and underscores in it. *)
Definition identifier (s : string) : Prop :=
  match s with
  | EmptyString => False
  | String c s' =>
      isIdentStart c /\ Forall isIdentChar (list_ascii_of_string s')
  end.

(** Two maps with the same content: every key reads the same in both. *)
Definition sameContent (m1 m2 : Record) : Prop :=
  forall k, mapGet k m1 = mapGet k m2.

Section Stored.
Variable TrimSpace : string -> string.
Variable Decode : Value -> error + list Record.

(** The value [w] that the second loop of [Translate] stores for a field
    of value [value] described by [e], for the recursive calls [T]: the
    trimmed string for a rename, the value of [MapFunc] for a
    [CustomTranslation], the translation of the nested map, or the
    translations of the decoded maps, in their order. *)
Definition stored (T : Record -> Descr -> Translated) (value : Value)
    (e : Entry) (w : Value) : Prop :=
  match e with
  | EString _ => exists s, value = VString s /\ w = VString (TrimSpace s)
  | EDescription md =>
      (Type_ md = CustomTranslation /\
       exists mapFunc, MapFunc md = Some mapFunc /\ mapFunc value = (w, None)) \/
      (Type_ md = MapTranslation /\
       exists m trans,
         value = VMap m /\ T m (SubTranslation md) = (Some trans, None) /\
         w = VMap trans) \/
      (Type_ md = MapArrayTranslation /\
       exists ms res,
         Decode value = inr ms /\
         Forall2 (fun m r => T m (SubTranslation md) = (Some r, None)) ms res /\
         w = VMaps res)
  | EOther _ => False
  end.

End Stored.

(** What [IsSimilar] requires of a field [vSrc] of the source described by
    [e], for the recursive calls [Sim]. *)
Definition similarTo (Decode : Value -> error + list Record)
    (Sim : Record -> Record -> Descr -> Similar) (dst : Record) (vSrc : Value)
    (e : Entry) : Prop :=
  match e with
  | EString stringConversion =>
      exists s, vSrc = VString s /\ mapGet stringConversion dst = Some (VString s)
  | EDescription md =>
      (Type_ md = MapTranslation /\
       exists srcMap dstMap,
         vSrc = VMap srcMap /\
         mapGet (TargetName md) dst = Some (VMap dstMap) /\
         fst (Sim srcMap dstMap (SubTranslation md)) = true) \/
      (Type_ md = MapArrayTranslation /\
       exists srcMaps dstVal dstMaps,
         Decode vSrc = inr srcMaps /\
         mapGet (TargetName md) dst = Some dstVal /\
         Decode dstVal = inr dstMaps /\
         Forall2 (fun m d => fst (Sim m d (SubTranslation md)) = true)
           srcMaps dstMaps)
  | EOther _ => False
  end.

(** * Properties *)

(** ** Go maps *)

(** The sub-description met under a key is one level shallower. *)
Lemma depth_SubTranslation (attr : string) (md : Description)
    (description : list (string * Entry)) :
  mapGet attr description = Some (EDescription md) ->
  depth (SubTranslation md) < depth (Some description).
Proof.
  induction description as [|[k e] l IH]; simpl; [discriminate|].
  destruct (String.eqb k attr).
  - intros [= ->]. simpl. unfold depth.
    destruct (SubTranslation md) as [sub|]; [|lia].
    fold (depthEntries sub). lia.
  - intros H. specialize (IH H). simpl in IH. lia.
Qed.

Lemma mapGet_In {V : Type} (k : string) (v : V) (m : list (string * V)) :
  mapGet k m = Some v -> In (k, v) m.
Proof.
  induction m as [|[k' v'] m IH]; simpl; [discriminate|].
  destruct (String.eqb_spec k' k) as [->|_].
  - intros [= ->]. now left.
  - intros H. right. now apply IH.
Qed.

Lemma mapGet_None_keys {V : Type} (k : string) (m : list (string * V)) :
  mapGet k m = None <-> ~ In k (keys m).
Proof.
  induction m as [|[k' v'] m IH]; simpl.
  - tauto.
  - destruct (String.eqb_spec k' k) as [->|Hne].
    + split; [discriminate|]. intros H. exfalso. apply H. now left.
    + rewrite IH. tauto.
Qed.

Lemma mapGet_mapSet_same {V : Type} (k : string) (v : V) (m : list (string * V)) :
  mapGet k (mapSet k v m) = Some v.
Proof.
  induction m as [|[k' v'] m IH]; simpl.
  - now rewrite String.eqb_refl.
  - destruct (String.eqb k' k) eqn:E; simpl.
    + now rewrite String.eqb_refl.
    + now rewrite E.
Qed.

Lemma mapGet_mapSet_other {V : Type} (k k' : string) (v : V)
    (m : list (string * V)) :
  k <> k' -> mapGet k' (mapSet k v m) = mapGet k' m.
Proof.
  intros Hne. induction m as [|[k0 v0] m IH]; simpl.
  - destruct (String.eqb_spec k k'); [contradiction|reflexivity].
  - destruct (String.eqb_spec k0 k) as [->|Hk0]; simpl.
    + destruct (String.eqb_spec k k'); [contradiction|reflexivity].
    + now rewrite IH.
Qed.

(** ** Loops *)

Lemma rangeOver_ext {X St Ret : Type} (f g : St -> X -> iteration St Ret)
    (xs : list X) :
  (forall s x, In x xs -> f s x = g s x) ->
  forall s, rangeOver f xs s = rangeOver g xs s.
Proof.
  induction xs as [|x xs IH]; intros H s; simpl; [reflexivity|].
  rewrite (H s x (or_introl eq_refl)).
  destruct (g s x); [|reflexivity].
  apply IH. intros s' x' Hx'. apply H. now right.
Qed.

Lemma rangeOver_app {X St Ret : Type} (f : St -> X -> iteration St Ret)
    (xs ys : list X) (s : St) :
  rangeOver f (xs ++ ys) s =
  match rangeOver f xs s with
  | Next s' => rangeOver f ys s'
  | Return r => Return r
  end.
Proof.
  revert s. induction xs as [|x xs IH]; intros s; simpl; [reflexivity|].
  destruct (f s x); [apply IH|reflexivity].
Qed.

(** ** The recursion of [Translate] and [IsSimilar] *)

Section Unfolding.
Variable TrimSpace : string -> string.
Variable Sprintf : string -> list fmtArg -> string.
Variable Decode : Value -> error + list Record.

Abbreviation Translate := (Translate TrimSpace Sprintf Decode).
Abbreviation TranslateAt := (TranslateAt TrimSpace Sprintf Decode).
Abbreviation TranslateBody := (TranslateBody TrimSpace Sprintf Decode).
Abbreviation translateField := (translateField TrimSpace Sprintf Decode).
Abbreviation IsSimilar := (IsSimilar Sprintf Decode).
Abbreviation IsSimilarAt := (IsSimilarAt Sprintf Decode).
Abbreviation IsSimilarBody := (IsSimilarBody Sprintf Decode).
Abbreviation similarField := (similarField Sprintf Decode).

Lemma translateField_ext (T1 T2 : Record -> Descr -> Translated)
    (src : Record) (description : list (string * Entry)) (result : Record)
    (av : string * Value) :
  (forall s d, depth d < depth (Some description) -> T1 s d = T2 s d) ->
  translateField T1 src description result av =
  translateField T2 src description result av.
Proof.
  intros H. destruct av as [attr value]. unfold translateField.
  destruct (mapGet attr description) as [[sc|md|o]|] eqn:Hget; try reflexivity.
  pose proof (depth_SubTranslation _ _ Hget) as Hd.
  set (md' := if String.eqb (TargetName md) EmptyString
              then withTargetName attr md else md).
  assert (Hsub : SubTranslation md' = SubTranslation md)
    by (unfold md'; destruct (String.eqb _ _); reflexivity).
  rewrite Hsub.
  destruct (Z.eqb (Type_ md') CustomTranslation); [reflexivity|].
  destruct (Z.eqb (Type_ md') MapTranslation).
  { destruct value; try reflexivity. now rewrite (H _ _ Hd). }
  destruct (Z.eqb (Type_ md') MapArrayTranslation); [|reflexivity].
  destruct (Decode value) as [err|srcMaps]; [reflexivity|].
  rewrite (rangeOver_ext (translateElement T1 (SubTranslation md))
             (translateElement T2 (SubTranslation md))); [reflexivity|].
  intros res [i val] _. unfold translateElement. now rewrite (H _ _ Hd).
Qed.

Lemma TranslateBody_ext (T1 T2 : Record -> Descr -> Translated)
    (src : Record) (description : Descr) :
  (forall s d, depth d < depth description -> T1 s d = T2 s d) ->
  TranslateBody T1 src description = TranslateBody T2 src description.
Proof.
  intros H. destruct description as [description|]; [|reflexivity].
  unfold TranslateBody.
  destruct (rangeOver (checkMandatory Sprintf src) description []);
    [|reflexivity].
  rewrite (rangeOver_ext (translateField T1 src description)
             (translateField T2 src description)); [reflexivity|].
  intros r av _. now apply translateField_ext.
Qed.

Lemma TranslateAt_depth (n m : nat) (src : Record) (description : Descr) :
  depth description < n -> depth description < m ->
  TranslateAt n src description = TranslateAt m src description.
Proof.
  revert m src description.
  induction n as [|n IH]; intros m src description Hn Hm; [lia|].
  destruct m as [|m]; [lia|]. simpl.
  apply TranslateBody_ext. intros s d Hd. apply IH; lia.
Qed.

(** [Translate] satisfies the recursive definition of the source. *)
Lemma Translate_unfold (src : Record) (description : Descr) :
  Translate src description = TranslateBody Translate src description.
Proof.
  unfold Translate at 1. simpl.
  apply TranslateBody_ext. intros s d Hd.
  apply TranslateAt_depth; lia.
Qed.

Lemma similarField_ext (S1 S2 : Record -> Record -> Descr -> Similar)
    (dst : Record) (descr : Descr) (u : unit) (kv : string * Value) :
  (forall s t d, depth d < depth descr -> S1 s t d = S2 s t d) ->
  similarField S1 dst descr u kv = similarField S2 dst descr u kv.
Proof.
  intros H. destruct kv as [k vSrc]. unfold similarField.
  destruct descr as [descr|]; [|reflexivity]. simpl asMap.
  destruct (mapGet k descr) as [[sc|md|o]|] eqn:Hget; try reflexivity.
  pose proof (depth_SubTranslation _ _ Hget) as Hd.
  destruct (Z.eqb (Type_ md) MapTranslation).
  { destruct vSrc; try reflexivity.
    destruct (mapGet (TargetName md) dst) as [[]|]; try reflexivity.
    now rewrite (H _ _ _ Hd). }
  destruct (Z.eqb (Type_ md) MapArrayTranslation); [|reflexivity].
  destruct (Decode vSrc) as [err|srcMaps]; [reflexivity|].
  destruct (mapGet (TargetName md) dst) as [dstVal|]; [|reflexivity].
  destruct (Decode dstVal) as [err|dstMaps]; [reflexivity|].
  destruct (negb _); [reflexivity|].
  rewrite (rangeOver_ext (similarElement S1 dstMaps (SubTranslation md))
             (similarElement S2 dstMaps (SubTranslation md))); [reflexivity|].
  intros [] [i val] _. unfold similarElement. now rewrite (H _ _ _ Hd).
Qed.

Lemma IsSimilarBody_ext (S1 S2 : Record -> Record -> Descr -> Similar)
    (src dst : Record) (descr : Descr) :
  (forall s t d, depth d < depth descr -> S1 s t d = S2 s t d) ->
  IsSimilarBody S1 src dst descr = IsSimilarBody S2 src dst descr.
Proof.
  intros H. unfold IsSimilarBody.
  rewrite (rangeOver_ext (similarField S1 dst descr)
             (similarField S2 dst descr)); [reflexivity|].
  intros u kv _. now apply similarField_ext.
Qed.

Lemma IsSimilarAt_depth (n m : nat) (src dst : Record) (descr : Descr) :
  depth descr < n -> depth descr < m ->
  IsSimilarAt n src dst descr = IsSimilarAt m src dst descr.
Proof.
  revert m src dst descr.
  induction n as [|n IH]; intros m src dst descr Hn Hm; [lia|].
  destruct m as [|m]; [lia|]. simpl.
  apply IsSimilarBody_ext. intros s t d Hd. apply IH; lia.
Qed.

(** [IsSimilar] satisfies the recursive definition of the source. *)
Lemma IsSimilar_unfold (src dst : Record) (descr : Descr) :
  IsSimilar src dst descr = IsSimilarBody IsSimilar src dst descr.
Proof.
  unfold IsSimilar at 1. simpl.
  apply IsSimilarBody_ext. intros s t d Hd.
  apply IsSimilarAt_depth; lia.
Qed.

End Unfolding.

(** ** Strings and the UUID expression *)

Lemma append_assoc (s1 s2 s3 : string) :
  ((s1 ++ s2) ++ s3 = s1 ++ (s2 ++ s3))%string.
Proof. induction s1 as [|c s1 IH]; simpl; [reflexivity|now rewrite IH]. Qed.

Lemma matchRepeat_length (a : atom) (n : nat) (s s' : string) :
  matchRepeat a n s = Some s' -> String.length s = n + String.length s'.
Proof.
  revert s. induction n as [|n IH]; intros s; simpl.
  - now intros [= ->].
  - destruct s as [|c s]; [discriminate|].
    destruct (matchAtom a c); [|discriminate].
    intros H. simpl. now rewrite (IH _ H).
Qed.

(** A match consumes as many bytes as the expression counts. *)
Lemma MatchString_length (re : Regexp) (s : string) :
  MatchString re s = true -> list_sum (map snd re) <= String.length s.
Proof.
  revert s. induction re as [|[a n] re IH]; intros s; simpl; [lia|].
  destruct (matchRepeat a n s) as [s'|] eqn:E; [|discriminate].
  intros H. apply IH in H. apply matchRepeat_length in E. lia.
Qed.

Lemma matchRepeat_group (a : atom) (n : nat) (g rest : string) :
  String.length g = n ->
  Forall (fun c => matchAtom a c = true) (list_ascii_of_string g) ->
  matchRepeat a n (g ++ rest)%string = Some rest.
Proof.
  revert n. induction g as [|c g IH]; intros n Hlen Hall; simpl in *.
  - now subst n.
  - subst n. inversion Hall as [|? ? Hc Hg]; subst. simpl.
    rewrite Hc. now apply IH.
Qed.

Lemma hexDigits_match (c : ascii) : In c hexDigits -> matchAtom hexDigit c = true.
Proof.
  unfold hexDigits. simpl.
  intros H. repeat (destruct H as [<-|H]; [reflexivity|]). contradiction.
Qed.

Lemma matchRepeat_hexGroup (n : nat) (g rest : string) :
  hexGroup n g -> matchRepeat hexDigit n (g ++ rest)%string = Some rest.
Proof.
  intros [Hlen Hall]. apply matchRepeat_group; [exact Hlen|].
  eapply Forall_impl; [|exact Hall]. exact hexDigits_match.
Qed.

Lemma matchRepeat_hyphen (s : string) :
  matchRepeat (Lit "-"%char) 1 ("-" ++ s)%string = Some s.
Proof. reflexivity. Qed.

(** The expression accepts every string that starts with a canonical
    UUID. *)
Lemma validUUID_prefix (u rest : string) :
  canonicalUUID u -> MatchString validUUID (u ++ rest)%string = true.
Proof.
  intros (g1 & g2 & g3 & g4 & g5 & H1 & H2 & H3 & H4 & H5 & ->).
  repeat rewrite append_assoc. unfold validUUID. cbn [MatchString].
  rewrite (matchRepeat_hexGroup _ H1). rewrite matchRepeat_hyphen.
  rewrite (matchRepeat_hexGroup _ H2). rewrite matchRepeat_hyphen.
  rewrite (matchRepeat_hexGroup _ H3). rewrite matchRepeat_hyphen.
  rewrite (matchRepeat_hexGroup _ H4). rewrite matchRepeat_hyphen.
  now rewrite (matchRepeat_hexGroup _ H5).
Qed.

Lemma trimLeft_length (s : string) : String.length (trimLeft s) <= String.length s.
Proof.
  induction s as [|c s IH]; simpl; [lia|].
  destruct (isAsciiSpace c); simpl; lia.
Qed.

Lemma trimRight_length (s : string) : String.length (trimRight s) <= String.length s.
Proof.
  induction s as [|c s IH]; simpl; [lia|].
  destruct (trimRight s); [destruct (isAsciiSpace c)|]; simpl in *; lia.
Qed.

Lemma trimSpaceASCII_length (s : string) :
  String.length (trimSpaceASCII s) <= String.length s.
Proof.
  unfold trimSpaceASCII.
  pose proof (trimRight_length (trimLeft s)). pose proof (trimLeft_length s). lia.
Qed.

(** ** Laws of [Translate], [IsSimilar] and [UUIDMap] *)

Section Laws.
Variable TrimSpace : string -> string.
Variable Sprintf : string -> list fmtArg -> string.
Variable Decode : Value -> error + list Record.

(** [strings.TrimSpace] returns a slice of its argument. *)
Hypothesis TrimSpace_length :
  forall s, String.length (TrimSpace s) <= String.length s.

Abbreviation Translate := (Translate TrimSpace Sprintf Decode).
Abbreviation translateField := (translateField TrimSpace Sprintf Decode).
Abbreviation checkMandatory := (checkMandatory Sprintf).
Abbreviation insertMissing := (insertMissing Sprintf).
Abbreviation IsSimilar := (IsSimilar Sprintf Decode).
Abbreviation similarField := (similarField Sprintf Decode).
Abbreviation UUIDMap := (UUIDMap TrimSpace Sprintf).
Abbreviation StringMap := (StringMap TrimSpace Sprintf).
Abbreviation Error := (Error Sprintf).
Abbreviation Errorf := (Errorf Sprintf).

(** The three loops of [Translate], for a description that is not nil. *)
Lemma Translate_phases (src : Record) (description : list (string * Entry)) :
  Translate src (Some description) =
  match rangeOver (checkMandatory src) description [] with
  | Return r => r
  | Next result =>
      match rangeOver (translateField Translate src description) src result with
      | Return r => r
      | Next result => returned (rangeOver (insertMissing src) description result)
      end
  end.
Proof. rewrite Translate_unfold. reflexivity. Qed.

(** *** The absent description *)

(** A nil description has no entry for any key: the loop of [IsSimilar]
    passes over every field. *)
Lemma similarField_nil_loop (Sim : Record -> Record -> Descr -> Similar)
    (dst src : Record) (u : unit) :
  rangeOver (similarField Sim dst None) src u = Next tt.
Proof.
  revert u. induction src as [|[k v] src' IH]; intros []; simpl;
    [reflexivity|apply IH].
Qed.

(** C9.  For every record [r], [Translate(r, nil)] returns [r] unchanged
    with a nil error. *)
Theorem Translate_nil_description (r : Record) :
  Translate r None = (Some r, None).
Proof. reflexivity. Qed.

(** C10.  For every source and every candidate result,
    [IsSimilar(src, dst, nil)] returns [true] with a nil error: every key of
    the source misses the lookup in the nil description and is skipped. *)
Theorem IsSimilar_nil_description (src dst : Record) :
  IsSimilar src dst None = (true, None).
Proof.
  rewrite IsSimilar_unfold. unfold IsSimilarBody.
  now rewrite (similarField_nil_loop IsSimilar dst src tt).
Qed.

(** *** UUIDMap *)

(** C8.  [UUIDMap] succeeds on every string whose trimmed value starts with
    a canonical 8-4-4-4-12 UUID, whatever follows it, and returns the
    trimmed string; it fails on the truncated ["cb89a4a9-7a7e-59ea-a0f2"]
    and on every value that is not a string. *)
Theorem UUIDMap_prefix_match :
  (forall s u rest,
      canonicalUUID u -> TrimSpace s = (u ++ rest)%string ->
      UUIDMap (VString s) = (VString (TrimSpace s), None)) /\
  (exists err,
      UUIDMap (VString "cb89a4a9-7a7e-59ea-a0f2") = (VString EmptyString, Some err)) /\
  (forall v, (forall s, v <> VString s) ->
      exists err, UUIDMap v = (VString EmptyString, Some err)).
Proof.
  split; [|split].
  - intros s u rest Hu Htrim. unfold UUIDMap.
    rewrite Htrim at 1. now rewrite (validUUID_prefix rest Hu).
  - unfold UUIDMap.
    destruct (MatchString validUUID (TrimSpace "cb89a4a9-7a7e-59ea-a0f2")) eqn:E.
    + apply MatchString_length in E.
      pose proof (TrimSpace_length "cb89a4a9-7a7e-59ea-a0f2") as H.
      simpl in E, H. lia.
    + eexists. reflexivity.
  - intros v Hv. destruct v; try (eexists; reflexivity).
    exfalso. now apply (Hv s).
Qed.

(** *** The mandatory check *)

(** The first loop leaves the result as it is. *)
Lemma checkMandatory_Next (src : Record) (description : list (string * Entry))
    (result result' : Record) :
  rangeOver (checkMandatory src) description result = Next result' ->
  result' = result /\ Forall (passesCheck src) description.
Proof.
  revert result. induction description as [|[k e] d IH]; intros result; simpl.
  - intros [= <-]. split; [reflexivity|constructor].
  - destruct e as [s|md|o]; simpl.
    + intros H. destruct (IH _ H) as [-> HF]. split; [reflexivity|].
      constructor; [exact I|exact HF].
    + destruct (Mandatory md) eqn:Hm.
      * destruct (mapGet k src) eqn:Hk; [|discriminate].
        intros H. destruct (IH _ H) as [-> HF]. split; [reflexivity|].
        constructor; [|exact HF]. unfold passesCheck; simpl.
        rewrite Hk. discriminate.
      * intros H. destruct (IH _ H) as [-> HF]. split; [reflexivity|].
        constructor; [|exact HF]. unfold passesCheck; simpl.
        rewrite Hm. discriminate.
    + discriminate.
Qed.

(** When it returns, it returns nil and the error of the first entry it
    does not pass over. *)
Lemma checkMandatory_Return (src : Record) (description : list (string * Entry))
    (result : Record) (out : Translated) :
  rangeOver (checkMandatory src) description result = Return out ->
  exists pre k e post,
    description = pre ++ (k, e) :: post /\
    Forall (passesCheck src) pre /\
    match e with
    | EString _ => False
    | EDescription md =>
        Mandatory md = true /\ mapGet k src = None /\
        out = (None, Some (MissingAttributeError k))
    | EOther _ =>
        out = (None, Some (InternalError
                             (Sprintf "%v is not Description" [ArgEntry e])))
    end.
Proof.
  revert result. induction description as [|[k e] d IH]; intros result; simpl;
    [discriminate|].
  assert (Hskip : passesCheck src (k, e) ->
                  rangeOver (checkMandatory src) d result = Return out ->
                  exists pre k0 e0 post,
                    (k, e) :: d = pre ++ (k0, e0) :: post /\
                    Forall (passesCheck src) pre /\
                    match e0 with
                    | EString _ => False
                    | EDescription md =>
                        Mandatory md = true /\ mapGet k0 src = None /\
                        out = (None, Some (MissingAttributeError k0))
                    | EOther _ =>
                        out = (None, Some (InternalError
                                 (Sprintf "%v is not Description" [ArgEntry e0])))
                    end).
  { intros Hp H. destruct (IH _ H) as (pre & k0 & e0 & post & -> & HF & He).
    exists ((k, e) :: pre), k0, e0, post. repeat split; [|exact He].
    now constructor. }
  destruct e as [s|md|o]; simpl.
  - apply Hskip. exact I.
  - destruct (Mandatory md) eqn:Hm.
    + destruct (mapGet k src) eqn:Hk.
      * apply Hskip. unfold passesCheck; simpl. rewrite Hk. discriminate.
      * intros [= <-]. exists [], k, (EDescription md), d.
        repeat split; [constructor|exact Hm|exact Hk].
    + apply Hskip. unfold passesCheck; simpl. rewrite Hm. discriminate.
  - intros [= <-]. exists [], k, (EOther o), d.
    repeat split. constructor.
Qed.

(** C2, as amended.  When a rule of the description is mandatory and its
    key is absent from the source, [Translate] returns nil and an error out
    of its first loop, before any field is translated.  The error is the
    one of the first offending entry the loop meets: a missing-attribute
    error naming a mandatory key that is absent from the source, or an
    internal error for an entry that is neither a string nor a
    [Description].  It names the key of the rule when every entry is a
    string or a [Description] and no other mandatory key is missing. *)
Theorem mandatory_missing_fails_in_first_loop (src : Record)
    (description : list (string * Entry)) (k : string) (md : Description) :
  In (k, EDescription md) description ->
  Mandatory md = true ->
  mapGet k src = None ->
  exists err,
    Translate src (Some description) = (None, Some err) /\
    rangeOver (checkMandatory src) description [] = Return (None, Some err) /\
    ((exists k' md', In (k', EDescription md') description /\
                     Mandatory md' = true /\ mapGet k' src = None /\
                     err = MissingAttributeError k') \/
     (exists k' o, In (k', EOther o) description /\
                   err = InternalError
                           (Sprintf "%v is not Description" [ArgEntry (EOther o)]))) /\
    ((forall k' e, In (k', e) description ->
                   match e with
                   | EString _ => True
                   | EDescription md' =>
                       Mandatory md' = false \/ mapGet k' src <> None \/ k' = k
                   | EOther _ => False
                   end) ->
     err = MissingAttributeError k).
Proof.
  intros Hin Hm Hk.
  destruct (rangeOver (checkMandatory src) description []) as [r|out] eqn:E.
  - apply checkMandatory_Next in E. destruct E as [_ HF].
    rewrite Forall_forall in HF. specialize (HF _ Hin).
    unfold passesCheck in HF; simpl in HF. now destruct (HF Hm).
  - pose proof (checkMandatory_Return _ _ _ E)
      as (pre & k0 & e0 & post & Hd & _ & He).
    assert (Hin0 : In (k0, e0) description).
    { rewrite Hd. apply in_or_app. right. now left. }
    destruct e0 as [s|md0|o]; [contradiction| |].
    + destruct He as (Hm0 & Hk0 & ->).
      exists (MissingAttributeError k0).
      rewrite Translate_phases, E. repeat split.
      * left. now exists k0, md0.
      * intros Hall. specialize (Hall _ _ Hin0). simpl in Hall.
        destruct Hall as [H|[H|H]]; [congruence|contradiction|now subst].
    + subst out. eexists. rewrite Translate_phases, E. repeat split.
      * right. now exists k0, o.
      * intros Hall. now specialize (Hall _ _ Hin0).
Qed.

(** *** Errors and partial results *)

(** C4 (the code departs from the claim).  A rename entry whose value is not
    a string makes [Translate] return the error together with the result
    built so far, in either order of iteration: with the field ["B1"]
    visited first the returned map holds ["b1"], with ["A1"] visited first
    it is the empty, non-nil map. *)
Theorem rename_error_returns_result_so_far :
  let description := Some [("A1", EString "a1"); ("B1", EString "b1")] in
  let err :=
    NewInvalidProp "A1"
      (Error (Errorf "invalid type %T for %v"
                [ArgValue (VInt 1); ArgValue (VInt 1)])) in
  Translate [("B1", VString "x"); ("A1", VInt 1)] description =
    (Some [("b1", VString (TrimSpace "x"))], Some err) /\
  Translate [("A1", VInt 1); ("B1", VString "x")] description =
    (Some [], Some err).
Proof. split; reflexivity. Qed.

(** The other error returns of the second loop carry a nil map: here a
    [MapFunc] that fails. *)
Lemma custom_error_returns_nil (T : Record -> Descr -> Translated)
    (src : Record) (description : list (string * Entry)) (result : Record)
    (attr : string) (value : Value) (md : Description) (mapFunc : MapFuncT)
    (v : Value) (err : error) :
  mapGet attr description = Some (EDescription md) ->
  Type_ md = CustomTranslation ->
  MapFunc md = Some mapFunc ->
  mapFunc value = (v, Some err) ->
  translateField T src description result (attr, value) =
  Return (None, Some (NewInvalidProp attr (Error err))).
Proof.
  intros Hget Hty Hf Hv. unfold translateField. rewrite Hget.
  destruct (String.eqb (TargetName md) EmptyString); simpl;
    rewrite Hty, Hf, Hv; reflexivity.
Qed.

(** *** The target name left unset *)

(** C6 (the code departs from the claim).  The second loop of [Translate]
    resolves an empty [TargetName] to the source key: the nested map of
    ["E"] is stored under ["E"].  [IsSimilar] does not: for the same
    description it looks the value up under the empty name and reports it
    missing.  Neither does the third loop of [Translate]: the value of an
    [InsertTranslation] with an empty [TargetName] is stored under the empty
    name. *)
Theorem unset_TargetName_resolved_in_second_loop_only :
  let nested :=
    Some [("E", EDescription
                  (mkDescription None false None None None EmptyString
                     MapTranslation))] in
  let insertFunc : InsertFuncT := fun _ dst _ => (dst, (VString "v", None)) in
  let inserted :=
    Some [("X", EDescription
                  (mkDescription (Some insertFunc) false None None None
                     EmptyString InsertTranslation))] in
  Translate [("E", VMap [])] nested = (Some [("E", VMap [])], None) /\
  IsSimilar [("E", VMap [])] [("E", VMap [])] nested =
    (false, Some (Errorf "Missing value for %s in %v"
                    [ArgString EmptyString; ArgMap [("E", VMap [])]])) /\
  Translate [] inserted = (Some [(EmptyString, VString "v")], None).
Proof. repeat split; reflexivity. Qed.

(** *** Deferred insertion *)

(** The third loop passes over the entries that are not insertions. *)
Lemma insertMissing_notInsertion (src : Record)
    (entries : list (string * Entry)) (result : Record) :
  Forall notInsertion entries ->
  rangeOver (insertMissing src) entries result = Next result.
Proof.
  induction 1 as [|[k e] l He _ IH]; simpl; [reflexivity|].
  unfold notInsertion in He; simpl in He.
  destruct e as [s|md|o]; [exact IH| |contradiction].
  apply Z.eqb_neq in He. rewrite He. simpl. exact IH.
Qed.

(** C1, as amended.  When the third loop reaches an [InsertTranslation]
    whose [InsertFunc] is not nil, with [result3] the result at that moment
    (the result [result2] of the second loop, changed by the insertions
    made earlier in the third loop; [result2] itself when no insertion
    precedes), the insertion fires if and only if [TargetName] is absent
    from [result3].  If it is present, the entry leaves the result as it is.
    If it is absent, [InsertFunc(src, result3, attr)] is called: its value
    is stored under [TargetName] in the result it leaves, or its error is
    returned with a nil map. *)
Theorem insertion_fires_iff_target_absent (src : Record)
    (pre post : list (string * Entry)) (attr : string) (md : Description)
    (insertFunc : InsertFuncT) (result2 result3 : Record) :
  let description := pre ++ (attr, EDescription md) :: post in
  Type_ md = InsertTranslation ->
  InsertFunc md = Some insertFunc ->
  rangeOver (checkMandatory src) description [] = Next [] ->
  rangeOver (translateField Translate src description) src [] = Next result2 ->
  rangeOver (insertMissing src) pre result2 = Next result3 ->
  (Forall notInsertion pre -> result3 = result2) /\
  match mapGet (TargetName md) result3 with
  | Some _ =>
      insertMissing src result3 (attr, EDescription md) = Next result3 /\
      Translate src (Some description) =
        returned (rangeOver (insertMissing src) post result3)
  | None =>
      match insertFunc src result3 attr with
      | (result, (val, None)) =>
          insertMissing src result3 (attr, EDescription md) =
            Next (mapSet (TargetName md) val result) /\
          Translate src (Some description) =
            returned (rangeOver (insertMissing src) post
                        (mapSet (TargetName md) val result))
      | (_, (_, Some err)) =>
          insertMissing src result3 (attr, EDescription md) =
            Return (None, Some err) /\
          Translate src (Some description) = (None, Some err)
      end
  end.
Proof.
  intros description Hty Hf H1 H2 H3. split.
  { intros Hpre. rewrite (insertMissing_notInsertion src result2 Hpre) in H3.
    now injection H3. }
  assert (Hstep : forall it,
             insertMissing src result3 (attr, EDescription md) = it ->
             Translate src (Some description) =
             match it with
             | Next r => returned (rangeOver (insertMissing src) post r)
             | Return out => out
             end).
  { intros it Hit. rewrite Translate_phases. fold description.
    rewrite H1, H2. unfold description. rewrite rangeOver_app, H3.
    cbn [rangeOver]. rewrite Hit. now destruct it. }
  assert (Hbody : insertMissing src result3 (attr, EDescription md) =
                  match mapGet (TargetName md) result3 with
                  | Some _ => Next result3
                  | None =>
                      match insertFunc src result3 attr with
                      | (_, (_, Some err)) => Return (None, Some err)
                      | (result, (val, None)) =>
                          Next (mapSet (TargetName md) val result)
                      end
                  end).
  { unfold insertMissing. rewrite Hty, Hf. reflexivity. }
  destruct (mapGet (TargetName md) result3) as [v|].
  - split; [exact Hbody|]. now rewrite (Hstep _ Hbody).
  - destruct (insertFunc src result3 attr) as [result [val [err|]]];
      (split; [exact Hbody|]); now rewrite (Hstep _ Hbody).
Qed.

(** *** Fields without a description *)

Lemma rangeOver_keeps {X : Type} (P : Record -> Prop)
    (body : Record -> X -> iteration Record Translated) (xs : list X) :
  Forall (keeps P body) xs ->
  forall result, P result ->
    match rangeOver body xs result with
    | Next result' => P result'
    | Return (Some result', _) => P result'
    | Return (None, _) => True
    end.
Proof.
  induction 1 as [|x xs Hx _ IH]; intros result HP; simpl; [exact HP|].
  specialize (Hx result HP).
  destruct (body result x) as [result'|[[r|] e]]; [now apply IH|exact Hx|exact I].
Qed.

Lemma mapGet_app_skip {V : Type} (pre post : list (string * V)) (k k' : string)
    (v : V) :
  k <> k' -> mapGet k' (pre ++ (k, v) :: post) = mapGet k' (pre ++ post).
Proof.
  intros Hne. induction pre as [|[k0 v0] pre IH]; simpl.
  - destruct (String.eqb_spec k k'); [contradiction|reflexivity].
  - now rewrite IH.
Qed.

Lemma mapGet_In_keys {V : Type} (k : string) (v : V) (m : list (string * V)) :
  In (k, v) m -> mapGet k m <> None.
Proof.
  intros Hin Hnone. apply mapGet_None_keys in Hnone. apply Hnone.
  unfold keys. now apply (in_map fst) in Hin.
Qed.

(** Without [ModifyTranslation], the second loop does not look at the
    source map beyond the field it visits. *)
Lemma translateField_src (T : Record -> Descr -> Translated)
    (src1 src2 : Record) (description : list (string * Entry))
    (result : Record) (av : string * Value) :
  withoutHooks description ->
  translateField T src1 description result av =
  translateField T src2 description result av.
Proof.
  intros Hno. destruct av as [attr value]. unfold translateField.
  destruct (mapGet attr description) as [[sc|md|o]|] eqn:Hget; try reflexivity.
  apply mapGet_In in Hget. unfold withoutHooks in Hno.
  rewrite Forall_forall in Hno. specialize (Hno _ Hget). simpl in Hno.
  destruct Hno as [Hmod _]. apply Z.eqb_neq in Hmod.
  set (md' := if String.eqb (TargetName md) EmptyString
              then withTargetName attr md else md).
  assert (Hty : Type_ md' = Type_ md)
    by (unfold md'; destruct (String.eqb _ _); reflexivity).
  rewrite Hty, Hmod.
  destruct (Z.eqb (Type_ md) CustomTranslation); [reflexivity|].
  destruct (Z.eqb (Type_ md) MapTranslation); [reflexivity|].
  destruct (Z.eqb (Type_ md) MapArrayTranslation); reflexivity.
Qed.

Lemma insertMissing_withoutHooks (src : Record)
    (description : list (string * Entry)) (result : Record) :
  withoutHooks description ->
  Forall (passesCheck src) description ->
  rangeOver (insertMissing src) description result = Next result.
Proof.
  intros Hno Hpass. apply insertMissing_notInsertion.
  unfold withoutHooks in Hno. rewrite Forall_forall in *.
  intros [k e] Hin. specialize (Hno _ Hin). specialize (Hpass _ Hin).
  unfold notInsertion, passesCheck in *; simpl in *.
  destruct e; tauto.
Qed.

Lemma checkMandatory_src (src1 src2 : Record)
    (description : list (string * Entry)) (result : Record) :
  (forall k e, In (k, e) description ->
               (mapGet k src1 = None <-> mapGet k src2 = None)) ->
  rangeOver (checkMandatory src1) description result =
  rangeOver (checkMandatory src2) description result.
Proof.
  intros H. apply rangeOver_ext. intros s [k e] Hin. simpl.
  destruct e as [sc|md|o]; try reflexivity.
  destruct (Mandatory md); [|reflexivity].
  specialize (H _ _ Hin).
  destruct (mapGet k src1), (mapGet k src2); try reflexivity.
  - discriminate (proj2 H eq_refl).
  - discriminate (proj1 H eq_refl).
Qed.

(** The second loop writes under the target names of the description
    only. *)
Lemma translateField_keeps_absent (T : Record -> Descr -> Translated)
    (src : Record) (description : list (string * Entry)) (k : string)
    (av : string * Value) :
  withoutHooks description ->
  (forall kv, In kv description -> targetOf kv <> k) ->
  keeps (fun result => mapGet k result = None)
    (translateField T src description) av.
Proof.
  intros Hno Htarget result HP. destruct av as [attr value].
  unfold translateField.
  destruct (mapGet attr description) as [[sc|md|o]|] eqn:Hget;
    [| |exact I|exact HP].
  - apply mapGet_In in Hget. specialize (Htarget _ Hget).
    unfold targetOf in Htarget; simpl in Htarget.
    destruct value; simpl; try exact HP.
    now rewrite mapGet_mapSet_other.
  - apply mapGet_In in Hget. pose proof (Htarget _ Hget) as Ht.
    unfold withoutHooks in Hno. rewrite Forall_forall in Hno.
    specialize (Hno _ Hget). simpl in Hno. destruct Hno as [Hmod _].
    apply Z.eqb_neq in Hmod.
    unfold targetOf in Ht; simpl in Ht.
    set (md' := if String.eqb (TargetName md) EmptyString
                then withTargetName attr md else md).
    assert (Hty : Type_ md' = Type_ md)
      by (unfold md'; destruct (String.eqb _ _); reflexivity).
    assert (Htn : TargetName md' <> k)
      by (unfold md'; destruct (String.eqb _ _); exact Ht).
    rewrite Hty, Hmod.
    destruct (Z.eqb (Type_ md) CustomTranslation).
    { destruct (MapFunc md') as [f|]; [|exact I].
      destruct (f value) as [v [e|]]; [exact I|].
      now rewrite mapGet_mapSet_other. }
    destruct (Z.eqb (Type_ md) MapTranslation).
    { destruct value; try exact I.
      destruct (T m (SubTranslation md')) as [trans [e|]]; [exact I|].
      now rewrite mapGet_mapSet_other. }
    destruct (Z.eqb (Type_ md) MapArrayTranslation).
    { destruct (Decode value) as [e|srcMaps]; [exact I|].
      destruct (rangeOver _ _ _) as [res|[[r|] e]] eqn:E.
      - now rewrite mapGet_mapSet_other.
      - exfalso. revert E. generalize (repeat ([] : Record) (length srcMaps)).
        induction (indexed srcMaps) as [|[i val] l IH]; intros res0; simpl;
          [discriminate|].
        destruct (T val (SubTranslation md')) as [trans [e'|]];
          [discriminate|apply IH].
      - exact I. }
    destruct (Z.eqb (Type_ md) InsertTranslation); [exact HP|exact I].
Qed.

Lemma insertMissing_src (src1 src2 : Record)
    (description : list (string * Entry)) (result : Record) :
  withoutHooks description ->
  rangeOver (insertMissing src1) description result =
  rangeOver (insertMissing src2) description result.
Proof.
  intros Hno. apply rangeOver_ext. intros s [k e] Hin.
  unfold withoutHooks in Hno. rewrite Forall_forall in Hno.
  specialize (Hno _ Hin). simpl in Hno. simpl.
  destruct e as [sc|md|o]; try reflexivity.
  destruct Hno as [_ Hins]. apply Z.eqb_neq in Hins. now rewrite Hins.
Qed.

Lemma absent_key_differs {V : Type} (k k' : string) (v : V)
    (m : list (string * V)) :
  mapGet k m = None -> In (k', v) m -> k <> k'.
Proof.
  intros Hnone Hin ->. now apply (mapGet_In_keys _ _ _ Hin).
Qed.

(** C7, as amended.  For a description that is not nil and a field of the
    source whose key has no entry in it: the second loop passes over the
    field without an error and leaves the result as it is; when the
    description has no [ModifyTranslation] and no [InsertTranslation] (the
    functions of which receive the whole source), [Translate] returns what
    it returns for the source without the field; and when moreover no entry
    has the key as its target name, the key is absent from the map that
    [Translate] returns. *)
Theorem undescribed_field_is_skipped (pre post : Record) (k : string)
    (v : Value) (description : list (string * Entry)) :
  mapGet k description = None ->
  (forall T src result,
      translateField T src description result (k, v) = Next result) /\
  (withoutHooks description ->
   Translate (pre ++ (k, v) :: post) (Some description) =
   Translate (pre ++ post) (Some description)) /\
  (withoutHooks description ->
   (forall kv, In kv description -> targetOf kv <> k) ->
   forall result err,
     Translate (pre ++ (k, v) :: post) (Some description) = (Some result, err) ->
     mapGet k result = None).
Proof.
  intros Hnone.
  assert (Hskip : forall T src result,
             translateField T src description result (k, v) = Next result).
  { intros T src result. unfold translateField. now rewrite Hnone. }
  split; [exact Hskip|]. split.
  - intros Hno. rewrite !Translate_phases.
    rewrite (checkMandatory_src (pre ++ (k, v) :: post) (pre ++ post)).
    2:{ intros k' e Hin. rewrite mapGet_app_skip; [tauto|].
        exact (absent_key_differs _ _ Hnone Hin). }
    destruct (rangeOver (checkMandatory (pre ++ post)) description [])
      as [result|r]; [|reflexivity].
    rewrite (rangeOver_ext
               (translateField Translate (pre ++ (k, v) :: post) description)
               (translateField Translate (pre ++ post) description)).
    2:{ intros s x _. now apply translateField_src. }
    rewrite !rangeOver_app.
    destruct (rangeOver (translateField Translate (pre ++ post) description)
                pre result) as [result1|r]; [|reflexivity].
    cbn [rangeOver]. rewrite Hskip.
    destruct (rangeOver (translateField Translate (pre ++ post) description)
                post result1) as [result2|r]; [|reflexivity].
    now rewrite (insertMissing_src (pre ++ (k, v) :: post) (pre ++ post)).
  - intros Hno Htarget result err. rewrite Translate_phases.
    destruct (rangeOver (checkMandatory (pre ++ (k, v) :: post)) description [])
      as [result1|r] eqn:E1.
    2:{ apply checkMandatory_Return in E1.
        destruct E1 as (p & k0 & e0 & q & _ & _ & He).
        destruct e0; [contradiction| |]; intros; subst r.
        - destruct He as (_ & _ & He). congruence.
        - congruence. }
    apply checkMandatory_Next in E1. destruct E1 as [-> Hpass].
    assert (HF : Forall (keeps (fun r => mapGet k r = None)
                           (translateField Translate (pre ++ (k, v) :: post)
                              description))
                   (pre ++ (k, v) :: post)).
    { apply Forall_forall. intros av _. now apply translateField_keeps_absent. }
    pose proof (rangeOver_keeps HF [] eq_refl) as Hinv.
    destruct (rangeOver
                (translateField Translate (pre ++ (k, v) :: post) description)
                (pre ++ (k, v) :: post) []) as [result2|[[r|] e]].
    + rewrite (insertMissing_withoutHooks _ Hno Hpass). simpl.
      now intros [= <- <-].
    + now intros [= <- <-].
    + discriminate.
Qed.

(** *** Arrays of nested maps *)

Lemma sliceSet_app {X : Type} (done rest : list X) (x y : X) :
  sliceSet (length done) x (done ++ y :: rest) = done ++ x :: rest.
Proof. induction done as [|d done IH]; simpl; [reflexivity|now rewrite IH]. Qed.

(** The loop over the elements, when every translation succeeds: element
    [i] of the slice is the translation of element [i] of the source. *)
Lemma translateElement_loop_Next (T : Record -> Descr -> Translated)
    (sub : Descr) (rest done : list Record) :
  Forall (fun val => snd (T val sub) = None) rest ->
  rangeOver (translateElement T sub)
    (combine (seq (length done) (length rest)) rest)
    (done ++ repeat [] (length rest)) =
  Next (done ++ map (fun val => asMap (fst (T val sub))) rest).
Proof.
  intros Hall. revert done.
  induction Hall as [|val rest Hval _ IH]; intros done; simpl; [reflexivity|].
  destruct (T val sub) as [trans err]. simpl in Hval. subst err.
  rewrite sliceSet_app.
  specialize (IH (done ++ [asMap trans])).
  rewrite length_app in IH. simpl in IH.
  rewrite Nat.add_1_r, <- !app_assoc in IH. exact IH.
Qed.

(** The loop returns at the first element whose translation fails. *)
Lemma translateElement_loop_Return (T : Record -> Descr -> Translated)
    (sub : Descr) (pre post : list Record) (val : Record) (err : error) :
  Forall (fun val => snd (T val sub) = None) pre ->
  snd (T val sub) = Some err ->
  forall n res,
    rangeOver (translateElement T sub)
      (combine (seq n (length (pre ++ val :: post))) (pre ++ val :: post)) res =
    Return (None, Some err).
Proof.
  intros Hpre Hval.
  induction Hpre as [|val' pre Hval' _ IH]; intros n res; simpl.
  - destruct (T val sub) as [trans e]. simpl in Hval. now subst e.
  - destruct (T val' sub) as [trans e]. simpl in Hval'. subst e. apply IH.
Qed.

(** Every [return] inside a loop of [Translate] carries an error. *)
Lemma rangeOver_Return_error {X St : Type}
    (body : St -> X -> iteration St Translated) (xs : list X) :
  (forall s x out, body s x = Return out -> snd out <> None) ->
  forall s out, rangeOver body xs s = Return out -> snd out <> None.
Proof.
  intros Hbody. induction xs as [|x xs IH]; intros s out; simpl; [discriminate|].
  destruct (body s x) as [s'|r] eqn:E; [apply IH|].
  intros [= <-]. exact (Hbody _ _ _ E).
Qed.

Lemma translateElement_Return_error (T : Record -> Descr -> Translated)
    (sub : Descr) (res : list Record) (ival : nat * Record) (out : Translated) :
  translateElement T sub res ival = Return out -> snd out <> None.
Proof.
  destruct ival as [i val]. unfold translateElement.
  destruct (T val sub) as [trans [e|]]; [|discriminate].
  now intros [= <-].
Qed.

Lemma translateField_Return_error (T : Record -> Descr -> Translated)
    (src : Record) (description : list (string * Entry)) (result : Record)
    (av : string * Value) (out : Translated) :
  translateField T src description result av = Return out -> snd out <> None.
Proof.
  destruct av as [attr value]. unfold translateField.
  destruct (mapGet attr description) as [[sc|md|o]|]; try discriminate.
  - destruct value; simpl; try discriminate; now intros [= <-].
  - set (md' := if String.eqb (TargetName md) EmptyString
                then withTargetName attr md else md).
    destruct (Z.eqb (Type_ md') CustomTranslation).
    { destruct (MapFunc md') as [f|]; [|now intros [= <-]].
      destruct (f value) as [v [e|]]; [now intros [= <-]|discriminate]. }
    destruct (Z.eqb (Type_ md') MapTranslation).
    { destruct value; try (now intros [= <-]).
      destruct (T m (SubTranslation md')) as [trans [e|]];
        [now intros [= <-]|discriminate]. }
    destruct (Z.eqb (Type_ md') MapArrayTranslation).
    { destruct (Decode value) as [e|srcMaps]; [now intros [= <-]|].
      destruct (rangeOver _ _ _) as [res|r] eqn:E; [discriminate|].
      intros [= <-]. revert E. apply rangeOver_Return_error.
      intros s x out'. apply translateElement_Return_error. }
    destruct (Z.eqb (Type_ md') ModifyTranslation).
    { destruct (ModFunc md') as [f|]; [|now intros [= <-]].
      destruct (f src result value) as [r [e|]]; [now intros [= <-]|discriminate]. }
    destruct (Z.eqb (Type_ md') InsertTranslation); [discriminate|].
    now intros [= <-].
  - now intros [= <-].
Qed.

Lemma checkMandatory_Return_error (src : Record) (result : Record)
    (kv : string * Entry) (out : Translated) :
  checkMandatory src result kv = Return out -> snd out <> None.
Proof.
  destruct kv as [k [sc|md|o]]; simpl; try discriminate.
  - destruct (Mandatory md); [|discriminate].
    destruct (mapGet k src); [discriminate|now intros [= <-]].
  - now intros [= <-].
Qed.

Lemma insertMissing_Return_error (src : Record) (result : Record)
    (kv : string * Entry) (out : Translated) :
  insertMissing src result kv = Return out -> snd out <> None.
Proof.
  destruct kv as [k [sc|md|o]]; simpl; try discriminate.
  - destruct (negb _); [discriminate|].
    destruct (InsertFunc md) as [f|]; [|now intros [= <-]].
    destruct (mapGet (TargetName md) result); [discriminate|].
    destruct (f src result k) as [r [v [e|]]]; [now intros [= <-]|discriminate].
  - now intros [= <-].
Qed.

(** With a nil error, [Translate] returns a map. *)
Lemma Translate_success (src : Record) (description : Descr)
    (m : option Record) :
  Translate src description = (m, None) -> exists result, m = Some result.
Proof.
  destruct description as [description|].
  2:{ change (Translate src None) with (Some src, @None error).
      intros [= <-]. now exists src. }
  rewrite Translate_phases.
  destruct (rangeOver (checkMandatory src) description []) as [r1|out] eqn:E1.
  2:{ intros ->. exfalso. revert E1. 
      intros E1. eapply (rangeOver_Return_error (checkMandatory src)) in E1.
      - now apply E1.
      - intros s x o. apply checkMandatory_Return_error. }
  destruct (rangeOver (translateField Translate src description) src r1)
    as [r2|out] eqn:E2.
  2:{ intros ->. exfalso.
      eapply (rangeOver_Return_error (translateField Translate src description))
        in E2.
      - now apply E2.
      - intros s x o. apply translateField_Return_error. }
  destruct (rangeOver (insertMissing src) description r2) as [r3|out] eqn:E3;
    simpl.
  - intros [= <-]. now exists r3.
  - intros ->. exfalso.
    eapply (rangeOver_Return_error (insertMissing src)) in E3.
    + now apply E3.
    + intros s x o. apply insertMissing_Return_error.
Qed.

Lemma translateField_MapArray (T : Record -> Descr -> Translated)
    (src : Record) (description : list (string * Entry)) (result : Record)
    (attr : string) (value : Value) (md : Description) (srcMaps : list Record) :
  mapGet attr description = Some (EDescription md) ->
  Type_ md = MapArrayTranslation ->
  Decode value = inr srcMaps ->
  translateField T src description result (attr, value) =
  match rangeOver (translateElement T (SubTranslation md)) (indexed srcMaps)
          (repeat [] (length srcMaps)) with
  | Return r => Return r
  | Next res =>
      Next (mapSet (if String.eqb (TargetName md) EmptyString
                    then attr else TargetName md) (VMaps res) result)
  end.
Proof.
  intros Hget Hty Hdec. unfold translateField. rewrite Hget.
  destruct (String.eqb (TargetName md) EmptyString); simpl;
    rewrite Hty, Hdec; reflexivity.
Qed.

(** A field on which the second loop returns makes [Translate] return. *)
Lemma Translate_field_returns (pre post : Record) (av : string * Value)
    (description : list (string * Entry)) (result : Record) (out : Translated) :
  let src := pre ++ av :: post in
  rangeOver (checkMandatory src) description [] = Next [] ->
  rangeOver (translateField Translate src description) pre [] = Next result ->
  translateField Translate src description result av = Return out ->
  Translate src (Some description) = out.
Proof.
  intros src H1 H2 H3. rewrite Translate_phases, H1.
  unfold src at 2. rewrite rangeOver_app. fold src. rewrite H2.
  cbn [rangeOver]. now rewrite H3.
Qed.

(** C3.  For a [MapArrayTranslation] applied to a field whose value decodes
    to a sequence of maps: when the translation of every element succeeds,
    the value stored under the target name is a sequence of the same length
    whose element [i] is the translation of element [i] of the source with
    the sub-description; when the translation of an element fails (those
    before it having succeeded), the field and the whole call return nil
    and the error of that element. *)
Theorem nested_array_translated_in_order (src : Record)
    (description : list (string * Entry)) (result : Record) (attr : string)
    (value : Value) (md : Description) (srcMaps : list Record) :
  mapGet attr description = Some (EDescription md) ->
  Type_ md = MapArrayTranslation ->
  Decode value = inr srcMaps ->
  let target :=
    if String.eqb (TargetName md) EmptyString then attr else TargetName md in
  let sub := SubTranslation md in
  ((forall val, In val srcMaps -> snd (Translate val sub) = None) ->
   exists res,
     translateField Translate src description result (attr, value) =
       Next (mapSet target (VMaps res) result) /\
     length res = length srcMaps /\
     forall i val, nth_error srcMaps i = Some val ->
       exists trans,
         Translate val sub = (Some trans, None) /\ nth_error res i = Some trans) /\
  (forall i val err,
     nth_error srcMaps i = Some val ->
     snd (Translate val sub) = Some err ->
     (forall j val', j < i -> nth_error srcMaps j = Some val' ->
                     snd (Translate val' sub) = None) ->
     translateField Translate src description result (attr, value) =
       Return (None, Some err) /\
     forall pre post,
       src = pre ++ (attr, value) :: post ->
       rangeOver (checkMandatory src) description [] = Next [] ->
       rangeOver (translateField Translate src description) pre [] = Next result ->
       Translate src (Some description) = (None, Some err)).
Proof.
  intros Hget Hty Hdec target sub.
  pose proof (@translateField_MapArray Translate src _ result _ _ _ _ Hget Hty Hdec)
    as Hfield. fold target sub in Hfield.
  split.
  - intros Hall.
    assert (HF : Forall (fun val => snd (Translate val sub) = None) srcMaps)
      by now apply Forall_forall.
    pose proof (@translateElement_loop_Next Translate sub _ [] HF) as Hloop.
    simpl in Hloop. unfold indexed in Hfield. rewrite Hloop in Hfield.
    exists (map (fun val => asMap (fst (Translate val sub))) srcMaps).
    split; [exact Hfield|]. split; [apply length_map|].
    intros i val Hi. specialize (Hall val (nth_error_In _ _ Hi)).
    destruct (Translate val sub) as [m e] eqn:E. simpl in Hall. subst e.
    destruct (Translate_success _ _ E) as [trans ->].
    exists trans. split; [reflexivity|].
    rewrite nth_error_map, Hi. simpl. now rewrite E.
  - intros i val err Hi Herr Hbefore.
    destruct (nth_error_split _ _ Hi) as (pre & post & Hsplit & Hlen).
    assert (HF : Forall (fun val => snd (Translate val sub) = None) pre).
    { apply Forall_forall. intros val' Hin.
      destruct (In_nth_error _ _ Hin) as [j Hj].
      assert (Hlt : j < i).
      { rewrite <- Hlen. apply nth_error_Some. now rewrite Hj. }
      apply (Hbefore j val' Hlt). rewrite Hsplit.
      now rewrite nth_error_app1 by lia. }
    assert (Hret : translateField Translate src description result (attr, value)
                   = Return (None, Some err)).
    { rewrite Hfield. unfold indexed. rewrite Hsplit.
      now rewrite (@translateElement_loop_Return Translate sub pre post val err HF Herr). }
    split; [exact Hret|].
    intros pre' post' -> H1 H2.
    exact (@Translate_field_returns pre' post' _ _ _ _ H1 H2 Hret).
Qed.

(** *** Translation followed by verification *)

(** [mapstructure.Decode] of a [[]map[string]interface{}] into a
    [[]map[string]interface{}] yields the same maps. *)
Hypothesis Decode_VMaps : forall ms, Decode (VMaps ms) = inr ms.

Abbreviation trimmedFor := (trimmedFor TrimSpace Decode).
Abbreviation fieldImage := (fieldImage TrimSpace Decode).

Lemma structuralEntries_In (l : list (string * Entry)) (k : string) (e : Entry) :
  structuralEntries l -> In (k, e) l -> structuralEntry e.
Proof.
  induction l as [|[k' e'] l IH]; simpl; [contradiction|].
  intros [He Hl] [[= -> ->]|Hin]; [exact He|now apply IH].
Qed.

Lemma structural_SubTranslation (md : Description) :
  structuralEntry (EDescription md) -> structural (SubTranslation md).
Proof.
  simpl. intros (_ & _ & H). unfold structural.
  destruct (SubTranslation md) as [l|]; [exact H|exact I].
Qed.

Lemma structuralEntries_notInsertion (l : list (string * Entry)) :
  structuralEntries l -> Forall notInsertion l.
Proof.
  induction l as [|[k e] l IH]; simpl; [constructor|].
  intros [He Hl]. constructor; [|now apply IH].
  unfold notInsertion; simpl. destruct e as [s|md|o]; [exact I| |exact He].
  simpl in He. destruct He as [[H|H] _]; rewrite H; discriminate.
Qed.

(** Entries of one description with the same target name are the same
    entry. *)
Lemma targetOf_injective (l : list (string * Entry)) (kv1 kv2 : string * Entry) :
  NoDup (map targetOf l) -> In kv1 l -> In kv2 l ->
  targetOf kv1 = targetOf kv2 -> kv1 = kv2.
Proof.
  induction l as [|kv l IH]; simpl; [contradiction|].
  intros Hnd H1 H2 Heq. inversion Hnd as [|? ? Hnotin Hnd']; subst.
  destruct H1 as [->|H1], H2 as [->|H2].
  - reflexivity.
  - exfalso. apply Hnotin. rewrite Heq. now apply in_map.
  - exfalso. apply Hnotin. rewrite <- Heq. now apply in_map.
  - now apply IH.
Qed.

(** If the loop over the elements ends, every translation succeeded. *)
Lemma translateElement_loop_success (T : Record -> Descr -> Translated)
    (sub : Descr) (ms : list Record) (n : nat) (res0 res : list Record) :
  rangeOver (translateElement T sub) (combine (seq n (length ms)) ms) res0 =
    Next res ->
  Forall (fun m => snd (T m sub) = None) ms.
Proof.
  revert n res0. induction ms as [|m ms IH]; intros n res0; simpl; [constructor|].
  destruct (T m sub) as [trans [e|]] eqn:Em; [discriminate|].
  intros E. constructor; [now rewrite Em|]. exact (IH _ _ E).
Qed.

(** One iteration of the second loop, for a structural description. *)
Lemma translateField_structural (src : Record)
    (description : list (string * Entry)) (result result' : Record)
    (attr : string) (value : Value) :
  structuralEntries description ->
  translateField Translate src description result (attr, value) = Next result' ->
  match mapGet attr description with
  | None => result' = result
  | Some e =>
      exists w, fieldImage Translate value e w /\
                result' = mapSet (targetOf (attr, e)) w result
  end.
Proof.
  intros Hst. unfold translateField.
  destruct (mapGet attr description) as [e|] eqn:Hget; [|now intros [= <-]].
  pose proof (@structuralEntries_In description attr e Hst (mapGet_In _ _ Hget))
    as He.
  destruct e as [sc|md|o]; [| |contradiction].
  - destruct value; simpl; try discriminate.
    intros [= <-]. eexists. split; [now exists s|reflexivity].
  - simpl in He. destruct He as (Hty & Htn & _).
    apply String.eqb_neq in Htn. unfold targetOf; simpl. rewrite Htn.
    destruct Hty as [Hty|Hty]; rewrite Hty.
    + change (Z.eqb MapTranslation CustomTranslation) with false.
      change (Z.eqb MapTranslation MapTranslation) with true. cbv iota.
      destruct value; try discriminate.
      destruct (Translate m (SubTranslation md)) as [trans [e|]] eqn:E;
        [discriminate|].
      intros [= <-]. destruct (Translate_success _ _ E) as [r ->].
      exists (VMap r). split; [|reflexivity].
      left. split; [reflexivity|]. now exists m, r.
    + change (Z.eqb MapArrayTranslation CustomTranslation) with false.
      change (Z.eqb MapArrayTranslation MapTranslation) with false.
      change (Z.eqb MapArrayTranslation MapArrayTranslation) with true.
      cbv iota.
      destruct (Decode value) as [e|ms] eqn:Hdec; [discriminate|].
      destruct (rangeOver _ _ _) as [res|r] eqn:E; [|discriminate].
      intros [= <-].
      assert (HF : Forall (fun m => snd (Translate m (SubTranslation md)) = None) ms).
      { exact (translateElement_loop_success _ _ _ _ _ E). }
      pose proof (@translateElement_loop_Next Translate (SubTranslation md) _ []
                    HF) as Hloop.
      pose proof (eq_trans (eq_sym E) Hloop) as Heq. injection Heq as ->.
      eexists. split; [|reflexivity].
      right. split; [reflexivity|]. now exists ms.
Qed.

(** A value stored under a target name stays there while the loop visits
    fields with other target names. *)
Lemma translateField_loop_preserves (src : Record)
    (description : list (string * Entry)) (rest : Record)
    (result result' : Record) (t : string) (w : Value) :
  structuralEntries description ->
  rangeOver (translateField Translate src description) rest result =
    Next result' ->
  (forall k v e, In (k, v) rest -> mapGet k description = Some e ->
                 targetOf (k, e) <> t) ->
  mapGet t result = Some w ->
  mapGet t result' = Some w.
Proof.
  intros Hst. revert result.
  induction rest as [|[k v] rest IH]; intros result; cbn [rangeOver].
  - now intros [= <-].
  - destruct (translateField Translate src description result (k, v))
      as [result1|r] eqn:E; [|discriminate].
    intros Hloop Hother Hw. apply (IH result1 Hloop).
    + intros k' v' e' Hin. apply (Hother k' v' e'). now right.
    + pose proof (@translateField_structural src description _ _ _ _ Hst E)
        as Hstep.
      destruct (mapGet k description) as [e|] eqn:Hget.
      * destruct Hstep as (w' & _ & ->).
        rewrite mapGet_mapSet_other; [exact Hw|].
        apply (Hother k v e); [now left|exact Hget].
      * now subst result1.
Qed.

(** After the second loop, the result holds under each target name what
    the loop stored for the field of that name. *)
Lemma translateField_loop_structural (src : Record)
    (description : list (string * Entry)) (fields : Record)
    (result result' : Record) :
  NoDup (map targetOf description) ->
  structuralEntries description ->
  uniqueKeys fields ->
  rangeOver (translateField Translate src description) fields result =
    Next result' ->
  forall k v e,
    In (k, v) fields -> mapGet k description = Some e ->
    exists w, fieldImage Translate v e w /\
              mapGet (targetOf (k, e)) result' = Some w.
Proof.
  intros Hnd Hst. revert result.
  induction fields as [|[k0 v0] rest IH]; intros result Huniq; cbn [rangeOver];
    [intros _ k v e []|].
  inversion Huniq as [|? ? Hnotin Hrest]; subst.
  destruct (translateField Translate src description result (k0, v0))
    as [result1|r] eqn:E; [|discriminate].
  intros Hloop k v e [[= -> ->]|Hin] Hget.
  - pose proof (@translateField_structural src description _ _ _ _ Hst E)
      as Hstep.
    rewrite Hget in Hstep. destruct Hstep as (w & Himg & ->).
    exists w. split; [exact Himg|].
    eapply translateField_loop_preserves; [exact Hst|exact Hloop| |].
    + intros k' v' e' Hin' Hget' Heq.
      assert (Hsame : (k', e') = (k, e)).
      { eapply targetOf_injective; [exact Hnd| | |exact Heq];
          now apply mapGet_In. }
      injection Hsame as -> ->. apply Hnotin.
      unfold keys. now apply (in_map fst) in Hin'.
    + apply mapGet_mapSet_same.
  - exact (IH result1 Hrest Hloop k v e Hin Hget).
Qed.

Lemma rangeOver_all_Next {X Ret : Type} (body : unit -> X -> iteration unit Ret)
    (xs : list X) :
  (forall x, In x xs -> body tt x = Next tt) ->
  rangeOver body xs tt = Next tt.
Proof.
  induction xs as [|x xs IH]; intros H; simpl; [reflexivity|].
  rewrite (H x (or_introl eq_refl)). apply IH.
  intros x' Hx'. apply H. now right.
Qed.

(** The loop of [IsSimilar] over the elements, when they are similar index
    by index. *)
Lemma similarElement_loop (Sim : Record -> Record -> Descr -> Similar)
    (dstMaps : list Record) (sub : Descr) (rest : list Record) (n : nat) :
  (forall j m, nth_error rest j = Some m ->
               Sim m (nth (n + j) dstMaps []) sub = (true, None)) ->
  rangeOver (similarElement Sim dstMaps sub)
    (combine (seq n (length rest)) rest) tt = Next tt.
Proof.
  revert n. induction rest as [|m rest IH]; intros n H; simpl; [reflexivity|].
  pose proof (H 0 m eq_refl) as H0. rewrite Nat.add_0_r in H0. rewrite H0.
  apply IH. intros j m' Hj. specialize (H (S j) m' Hj).
  now rewrite Nat.add_succ_r in H.
Qed.

(** C5, as amended.  For a description made of renames, [MapTranslation]
    and [MapArrayTranslation] with target names that are set and pairwise
    distinct, and a source whose renamed strings have no white space to
    trim: if [Translate(source, d)] succeeds with [result], then
    [IsSimilar(source, result, d)], with the same description [d], returns
    [true] and a nil error. *)
Theorem translation_is_similar (src result : Record) (description : Descr) :
  structural description ->
  trimmedFor src description ->
  Translate src description = (Some result, None) ->
  IsSimilar src result description = (true, None).
Proof.
  remember (S (depth description)) as n eqn:Hn.
  assert (Hd : depth description < n) by lia. clear Hn.
  revert description Hd src result.
  induction n as [|n IH]; intros description Hd src result Hst Htr HT; [lia|].
  rewrite IsSimilar_unfold. unfold IsSimilarBody.
  destruct description as [l|];
    [|now rewrite (similarField_nil_loop IsSimilar result src tt)].
  destruct Hst as [Hnd Hse].
  inversion Htr as [|? ? Huniq Hstr Hmap Harr]; subst.
  rewrite Translate_phases in HT.
  destruct (rangeOver (checkMandatory src) l []) as [r1|out] eqn:E1.
  2:{ exfalso. subst out.
      apply (@rangeOver_Return_error _ _ (checkMandatory src) l) in E1;
        [now apply E1|].
      intros s x o. apply checkMandatory_Return_error. }
  apply checkMandatory_Next in E1. destruct E1 as [-> _].
  destruct (rangeOver (translateField Translate src l) src []) as [r2|out] eqn:E2.
  2:{ exfalso. subst out.
      apply (@rangeOver_Return_error _ _ (translateField Translate src l) src)
        in E2; [now apply E2|].
      intros s x o. apply translateField_Return_error. }
  rewrite (insertMissing_notInsertion src r2
             (structuralEntries_notInsertion _ Hse)) in HT.
  simpl in HT. injection HT as ->.
  pose proof (@translateField_loop_structural _ _ _ _ _ Hnd Hse Huniq E2)
    as Hloop.
  rewrite rangeOver_all_Next; [reflexivity|].
  intros [k v] Hin. unfold similarField. simpl asMap.
  destruct (mapGet k l) as [e|] eqn:Hget; [|reflexivity].
  destruct (Hloop k v e Hin Hget) as (w & Himg & Hres).
  pose proof (@structuralEntries_In l k e Hse (mapGet_In _ _ Hget)) as He.
  pose proof (@depth_SubTranslation k) as Hdepth.
  destruct e as [t|md|o]; [| |contradiction].
  - destruct Himg as (s & -> & ->). unfold targetOf in Hres; simpl in Hres.
    rewrite Hres, (Hstr k s t Hin Hget), String.eqb_refl. reflexivity.
  - specialize (Hdepth md l Hget). simpl in Hd.
    pose proof (@structural_SubTranslation md He) as Hsub.
    simpl in He. destruct He as (_ & Htn & _).
    apply String.eqb_neq in Htn. unfold targetOf in Hres; simpl in Hres.
    rewrite Htn in Hres.
    destruct Himg as [(Hty & m & trans & -> & HTm & ->)
                     |(Hty & ms & Hdec & Hall & ->)]; rewrite Hty.
    + change (Z.eqb MapTranslation MapTranslation) with true. cbv iota.
      rewrite Hres.
      rewrite (IH (SubTranslation md)); [reflexivity|simpl in Hdepth; lia
                                        |exact Hsub| |exact HTm].
      exact (Hmap k m md Hin Hget Hty).
    + change (Z.eqb MapArrayTranslation MapTranslation) with false.
      change (Z.eqb MapArrayTranslation MapArrayTranslation) with true.
      cbv iota. rewrite Hdec, Hres, Decode_VMaps, length_map, Nat.eqb_refl.
      simpl negb. cbv iota. unfold indexed.
      rewrite similarElement_loop; [reflexivity|].
      intros j m Hj. simpl.
      erewrite nth_error_nth; [|rewrite nth_error_map, Hj; reflexivity].
      rewrite Forall_forall in Hall. specialize (Hall m (nth_error_In _ _ Hj)).
      destruct (Translate m (SubTranslation md)) as [x e] eqn:Em.
      simpl in Hall. subst e. destruct (Translate_success _ _ Em) as [trans ->].
      simpl. apply IH; [simpl in Hdepth; lia|exact Hsub| |exact Em].
      exact (Harr k v md ms m Hin Hget Hty Hdec (nth_error_In _ _ Hj)).
Qed.

End Laws.

(** * The laws at the scenarios of the tests *)

Abbreviation TranslateGo := (Translate trimSpaceASCII sprintfVerbatim decodeMaps).
Abbreviation IsSimilarGo := (IsSimilar sprintfVerbatim decodeMaps).

(** The scenarios of the tests and of the specification. *)
Example TestMapMap :
  TranslateGo mapMapSrc mapMapDescr = (Some [("a1", VString "foo")], None).
Proof. reflexivity. Qed.

Example TestMapTranslation :
  TranslateGo mapTranslationSrc mapTranslationDescr =
  (Some [("e1", VMap [("e11", VString "is_e11"); ("e12", VString "is_e12")])],
   None).
Proof. reflexivity. Qed.

Example TestMapArrayTranslation :
  TranslateGo mapArraySrc (Some mapArrayDescr) =
  (Some [("m", VMaps [[("a", VString "1"); ("b", VString "1")];
                      [("a", VString "2"); ("b", VString "3")]])], None).
Proof. reflexivity. Qed.

Example TestInsertTranslation :
  TranslateGo insertSrc (Some insertDescr) =
  (Some [("A", VString "Hello"); ("a", VString "Hello")], None).
Proof. reflexivity. Qed.

Example TestMandatoryOption :
  TranslateGo mandatorySrc (Some mandatoryDescr) =
  (None, Some (MissingAttributeError "A1")).
Proof. reflexivity. Qed.

(** The tests verify a translation with [IsSimilar(dst, src, verifier)],
    where the verifier maps the target names back to the source names. *)
Example TestMapMap_verifier :
  IsSimilarGo [("a1", VString "foo")] mapMapSrc (Some [("a1", EString "A1")]) =
  (true, None).
Proof. reflexivity. Qed.

Example TestMapTranslation_verifier :
  IsSimilarGo
    [("e1", VMap [("e11", VString "is_e11"); ("e12", VString "is_e12")])]
    mapTranslationSrc
    (Some [("e1", EDescription
                    (mkDescription None false None None
                       (Some [("e11", EString "E11"); ("e12", EString "E12")])
                       "E1" MapTranslation))]) =
  (true, None).
Proof. reflexivity. Qed.

Lemma hexGroup_check (n : nat) (g : string) :
  Nat.eqb (String.length g) n &&
  forallb (fun c => existsb (Ascii.eqb c) hexDigits) (list_ascii_of_string g)
  = true ->
  hexGroup n g.
Proof.
  intros H. apply andb_prop in H. destruct H as [Hn Hall].
  split; [now apply Nat.eqb_eq|].
  rewrite forallb_forall in Hall. apply Forall_forall. intros c Hc.
  specialize (Hall c Hc). apply existsb_exists in Hall.
  destruct Hall as (c' & Hin & Heq). apply Ascii.eqb_eq in Heq. now subst.
Defined.

(** C8 at the UUID of [TestUUID], surrounded by white space and followed by
    more characters. *)
Lemma UUIDMap_prefix_match_witness :
  (forall s, String.length (trimSpaceASCII s) <= String.length s) /\
  UUIDMap trimSpaceASCII sprintfVerbatim
    (VString " fc62e0eb-7969-5c24-b83f-955bf7f4ad0b-and-more ") =
  (VString "fc62e0eb-7969-5c24-b83f-955bf7f4ad0b-and-more", None).
Proof.
  split; [exact trimSpaceASCII_length|].
  destruct (@UUIDMap_prefix_match trimSpaceASCII sprintfVerbatim
              trimSpaceASCII_length) as [H _].
  refine (H " fc62e0eb-7969-5c24-b83f-955bf7f4ad0b-and-more "
            "fc62e0eb-7969-5c24-b83f-955bf7f4ad0b" "-and-more" _ _).
  - exists "fc62e0eb", "7969", "5c24", "b83f", "955bf7f4ad0b".
    repeat (split; [apply hexGroup_check; reflexivity|]). reflexivity.
  - reflexivity.
Defined.

(** C2 at [TestMandatoryOption]. *)
Lemma mandatory_missing_fails_in_first_loop_witness :
  In ("A1", EDescription mandatoryRule) mandatoryDescr /\
  Mandatory mandatoryRule = true /\
  mapGet "A1" mandatorySrc = None /\
  TranslateGo mandatorySrc (Some mandatoryDescr) =
  (None, Some (MissingAttributeError "A1")).
Proof.
  assert (Hin : In ("A1", EDescription mandatoryRule) mandatoryDescr)
    by (right; left; reflexivity).
  split; [exact Hin|]. split; [reflexivity|]. split; [reflexivity|].
  destruct (@mandatory_missing_fails_in_first_loop trimSpaceASCII
              sprintfVerbatim decodeMaps mandatorySrc mandatoryDescr "A1"
              mandatoryRule Hin eq_refl eq_refl) as (err & H1 & _ & _ & H4).
  rewrite H1, H4; [reflexivity|].
  intros k' e [H|[H|[]]]; injection H as <- <-; simpl; auto.
Defined.

(** C1 at [TestInsertTranslation]: the target ["a"] is absent when the
    third loop reaches the entry, and the value of the function is stored
    under it. *)
Lemma insertion_fires_iff_target_absent_witness :
  mapGet (TargetName insertRule) ([] : Record) = None /\
  TranslateGo insertSrc (Some insertDescr) =
  (Some [("A", VString "Hello"); ("a", VString "Hello")], None).
Proof.
  split; [reflexivity|].
  destruct (@insertion_fires_iff_target_absent trimSpaceASCII sprintfVerbatim
              decodeMaps insertSrc [] [] "Hello" insertRule insFunc [] []
              eq_refl eq_refl eq_refl eq_refl eq_refl) as [_ H].
  simpl in H. destruct H as [_ H]. exact H.
Defined.

(** C1 as stated fails: with two insertions of the same target name, the
    name is absent from the result after the second loop, and yet the
    insertion visited second does not fire, whichever it is. *)
Lemma insertion_skipped_though_absent_after_fields :
  rangeOver
    (translateField trimSpaceASCII sprintfVerbatim decodeMaps TranslateGo []
       [("X", EDescription insertFromX); ("Y", EDescription insertFromY)])
    [] [] = Next [] /\
  mapGet "a" ([] : Record) = None /\
  TranslateGo []
    (Some [("X", EDescription insertFromX); ("Y", EDescription insertFromY)]) =
  (Some [("a", VString "from X")], None) /\
  TranslateGo []
    (Some [("Y", EDescription insertFromY); ("X", EDescription insertFromX)]) =
  (Some [("a", VString "from Y")], None).
Proof. repeat split. Qed.

(** C2 as stated fails: with two mandatory keys absent from the source, the
    error names the one met first; the other rule is mandatory and its key
    is absent too, and the error does not name it. *)
Lemma mandatory_error_names_first_missing_key :
  Mandatory mandatoryA = true /\ Mandatory mandatoryB = true /\
  mapGet "A" ([] : Record) = None /\ mapGet "B" ([] : Record) = None /\
  TranslateGo []
    (Some [("A", EDescription mandatoryA); ("B", EDescription mandatoryB)]) =
  (None, Some (MissingAttributeError "A")) /\
  TranslateGo []
    (Some [("B", EDescription mandatoryB); ("A", EDescription mandatoryA)]) =
  (None, Some (MissingAttributeError "B")).
Proof. repeat split. Qed.

(** An entry that is neither a string nor a [Description], met first, takes
    precedence over the missing mandatory key. *)
Example mandatory_error_after_bad_entry :
  TranslateGo []
    (Some [("Z", EOther (VInt 1)); ("A", EDescription mandatoryA)]) =
  (None, Some (InternalError "%v is not Description")).
Proof. reflexivity. Qed.

(** C3 at [TestMapArrayTranslation]. *)
Lemma nested_array_translated_in_order_witness :
  mapGet "M" mapArrayDescr = Some (EDescription mapArrayRule) /\
  Type_ mapArrayRule = MapArrayTranslation /\
  exists res,
    translateField trimSpaceASCII sprintfVerbatim decodeMaps TranslateGo
      mapArraySrc mapArrayDescr [] ("M", mapArrayValue) =
      Next [("m", VMaps res)] /\
    length res = 2 /\
    nth_error res 1 = Some [("a", VString "2"); ("b", VString "3")].
Proof.
  split; [reflexivity|]. split; [reflexivity|].
  destruct (@nested_array_translated_in_order trimSpaceASCII sprintfVerbatim
              decodeMaps mapArraySrc mapArrayDescr [] "M" mapArrayValue
              mapArrayRule _ eq_refl eq_refl eq_refl) as [H _].
  destruct H as (res & Hfield & Hlen & Hnth).
  - intros val [<-|[<-|[]]]; reflexivity.
  - exists res. split; [exact Hfield|]. split; [exact Hlen|].
    destruct (Hnth 1 _ eq_refl) as (trans & Htrans & Hres).
    rewrite Hres. f_equal. now injection Htrans as <-.
Defined.

(** C5 at [TestMapTranslation]: the translation of the source is similar to
    the source for the description that produced it. *)
Lemma translation_is_similar_witness :
  (forall ms, decodeMaps (VMaps ms) = inr ms) /\
  TranslateGo mapTranslationSrc mapTranslationDescr =
    (Some [("e1", VMap [("e11", VString "is_e11"); ("e12", VString "is_e12")])],
     None) /\
  IsSimilarGo mapTranslationSrc
    [("e1", VMap [("e11", VString "is_e11"); ("e12", VString "is_e12")])]
    mapTranslationDescr = (true, None).
Proof.
  split; [reflexivity|]. split; [reflexivity|].
  apply (@translation_is_similar trimSpaceASCII sprintfVerbatim decodeMaps
           (fun ms => eq_refl)).
  - split; [repeat constructor; simpl; tauto|].
    simpl. repeat split; try discriminate; try (left; reflexivity).
    repeat constructor; simpl; intuition discriminate.
  - constructor.
    + repeat constructor; simpl; tauto.
    + intros k s t [H|[]]. discriminate H.
    + intros k m md [H|[]] Hget _. injection H as <- <-.
      injection Hget as <-. constructor.
      * repeat constructor; simpl; intuition discriminate.
      * intros k s t [H|[H|[]]] _; injection H as <- <-; reflexivity.
      * intros k m md [H|[H|[]]]; discriminate H.
      * intros k v md ms m [H|[H|[]]]; injection H as <- <-; discriminate.
    + intros k v md ms m [H|[]] Hget Hty. injection H as <- <-.
      injection Hget as <-. discriminate Hty.
  - reflexivity.
Defined.

(** C5 as stated fails.  A string with white space around it is stored
    trimmed, and [IsSimilar] compares the strings as they are: for the
    description that renames ["a"] to ["a"], which is its own swap, the
    result of [Translate] is not similar to the source.  And with trimmed
    strings, the swapped description relates the result to the source, not
    the source to the result: [IsSimilar] looks the keys of its first
    argument up in the description, so that the source with a field ["b"]
    is not similar to its translation for the swapped description, and is
    similar to it for the description itself. *)
Lemma translation_not_similar_for_swapped_description :
  let d := Some [("a", EString "a")] in
  let d2 := Some [("a", EString "b")] in
  let d2' := Some [("b", EString "a")] in
  (TranslateGo [("a", VString " x")] d = (Some [("a", VString "x")], None) /\
   IsSimilarGo [("a", VString " x")] [("a", VString "x")] d =
     (false, Some (Errorf sprintfVerbatim "Values %s and %s don't match"
                     [ArgString " x"; ArgString "x"]))) /\
  (TranslateGo [("a", VString "x"); ("b", VString "y")] d2 =
     (Some [("b", VString "x")], None) /\
   IsSimilarGo [("a", VString "x"); ("b", VString "y")] [("b", VString "x")] d2' =
     (false, Some (NewInternalError
                     (sprintfVerbatim "Missing value for %s" [ArgString "a"]))) /\
   IsSimilarGo [("a", VString "x"); ("b", VString "y")] [("b", VString "x")] d2 =
     (true, None)).
Proof. repeat split. Qed.

(** Two renames with the same target name: the value stored last is kept,
    and the other field is not similar to it. *)
Example translation_not_similar_for_shared_target :
  let d := Some [("a", EString "c"); ("b", EString "c")] in
  TranslateGo [("a", VString "x"); ("b", VString "y")] d =
    (Some [("c", VString "y")], None) /\
  fst (IsSimilarGo [("a", VString "x"); ("b", VString "y")]
         [("c", VString "y")] d) = false.
Proof. split; reflexivity. Qed.

(** C7 at [TestMapMap]: the field ["C1"] has no description. *)
Lemma undescribed_field_is_skipped_witness :
  mapGet "C1" (asMap mapMapDescr) = None /\
  TranslateGo mapMapSrc mapMapDescr =
    TranslateGo [("A1", VString "foo")] mapMapDescr /\
  (forall result err,
      TranslateGo mapMapSrc mapMapDescr = (Some result, err) ->
      mapGet "C1" result = None).
Proof.
  split; [reflexivity|].
  destruct (@undescribed_field_is_skipped trimSpaceASCII sprintfVerbatim
              decodeMaps [("A1", VString "foo")] [] "C1" (VString "missing")
              (asMap mapMapDescr) eq_refl) as (_ & Hsame & Habsent).
  assert (Hno : withoutHooks (asMap mapMapDescr)) by (repeat constructor).
  split.
  - exact (Hsame Hno).
  - apply (Habsent Hno). intros kv [<-|[]]. discriminate.
Defined.

(** C7 as stated fails: a nil description has no entry for any key, and
    [Translate] returns the source with all its fields. *)
Lemma undescribed_field_kept_by_nil_description :
  mapGet "C1" (asMap (None : Descr)) = None /\
  TranslateGo mapMapSrc None = (Some mapMapSrc, None) /\
  mapGet "C1" mapMapSrc = Some (VString "missing").
Proof. repeat split. Qed.

(** With a description that is not nil, a [ModFunc] may still copy a field
    that has no description, and another entry may use its key as target
    name. *)
Example undescribed_field_copied_by_ModFunc :
  TranslateGo mapMapSrc (Some [("A1", EDescription copyRule)]) =
  (Some [("c1", VString "missing")], None).
Proof. reflexivity. Qed.

Example undescribed_key_used_as_target :
  TranslateGo mapMapSrc (Some [("A1", EString "C1")]) =
  (Some [("C1", VString "foo")], None).
Proof. reflexivity. Qed.

(** * Further properties of the package *)

(** ** Loops, again *)

Lemma rangeOver_Return_In {X St Ret : Type}
    (body : St -> X -> iteration St Ret) (xs : list X) (s : St) (r : Ret) :
  rangeOver body xs s = Return r ->
  exists s' x, In x xs /\ body s' x = Return r.
Proof.
  revert s. induction xs as [|x xs IH]; intros s; cbn [rangeOver];
    [discriminate|].
  destruct (body s x) as [s1|r1] eqn:E.
  - intros H. destruct (IH _ H) as (s' & x' & Hin & Hx).
    exists s', x'. split; [now right|exact Hx].
  - intros [= <-]. exists s, x. split; [now left|exact E].
Qed.

(** A loop without state runs to its end when no iteration returns. *)
Lemma rangeOver_unit_Next {X Ret : Type}
    (body : unit -> X -> iteration unit Ret) (xs : list X) :
  rangeOver body xs tt = Next tt <->
  (forall x, In x xs -> body tt x = Next tt).
Proof.
  split; [|apply rangeOver_all_Next].
  induction xs as [|x xs IH]; cbn [rangeOver]; [intros _ x []|].
  destruct (body tt x) as [[]|r] eqn:E; [|discriminate].
  intros H x' [<-|Hin]; [exact E|now apply IH].
Qed.

Lemma Forall2_nth_error {A B : Type} (P : A -> B -> Prop) (d : B)
    (xs : list A) (ys : list B) :
  Forall2 P xs ys <->
  length xs = length ys /\
  (forall j x, nth_error xs j = Some x -> P x (nth j ys d)).
Proof.
  split.
  - induction 1 as [|x y xs ys Hxy _ [IHlen IH]]; simpl.
    + split; [reflexivity|]. intros [|j] x; discriminate.
    + split; [now rewrite IHlen|].
      intros [|j] x'; simpl; [now intros [= <-]|apply IH].
  - revert ys. induction xs as [|x xs IH]; intros [|y ys] [Hlen H];
      try discriminate; constructor.
    + exact (H 0 x eq_refl).
    + apply IH. split; [now injection Hlen|].
      intros j x' Hj. exact (H (S j) x' Hj).
Qed.

Section FurtherLaws.
Variable TrimSpace : string -> string.
Variable Sprintf : string -> list fmtArg -> string.
Variable Decode : Value -> error + list Record.

Abbreviation Translate := (Translate TrimSpace Sprintf Decode).
Abbreviation translateField := (translateField TrimSpace Sprintf Decode).
Abbreviation checkMandatory := (checkMandatory Sprintf).
Abbreviation insertMissing := (insertMissing Sprintf).
Abbreviation IsSimilar := (IsSimilar Sprintf Decode).
Abbreviation similarField := (similarField Sprintf Decode).
Abbreviation stored := (stored TrimSpace Decode).
Abbreviation similarTo := (similarTo Decode).

(** ** What [IsSimilar] returns *)

Lemma similarElement_loop_iff (Sim : Record -> Record -> Descr -> Similar)
    (dstMaps : list Record) (sub : Descr) (rest : list Record) (n : nat) :
  rangeOver (similarElement Sim dstMaps sub)
    (combine (seq n (length rest)) rest) tt = Next tt <->
  (forall j m, nth_error rest j = Some m ->
               fst (Sim m (nth (n + j) dstMaps []) sub) = true).
Proof.
  revert n. induction rest as [|m rest IH]; intros n; cbn [rangeOver length seq combine].
  - split; [intros _ [|j] m'; discriminate|reflexivity].
  - unfold similarElement at 1.
    destruct (Sim m (nth n dstMaps []) sub) as [[|] e] eqn:E.
    + rewrite IH. split.
      * intros H [|j] m'; simpl.
        -- intros [= <-]. now rewrite Nat.add_0_r, E.
        -- intros Hj. rewrite Nat.add_succ_r. now apply H.
      * intros H j m' Hj. specialize (H (S j) m' Hj).
        now rewrite Nat.add_succ_r in H.
    + split; [discriminate|]. intros H.
      specialize (H 0 m eq_refl). rewrite Nat.add_0_r, E in H. discriminate H.
Qed.

(** An iteration of [IsSimilar] goes on exactly when the field is similar
    to what the destination holds. *)
Lemma similarField_Next_iff (Sim : Record -> Record -> Descr -> Similar)
    (dst : Record) (descr : Descr) (k : string) (vSrc : Value) :
  similarField Sim dst descr tt (k, vSrc) = Next tt <->
  match mapGet k (asMap descr) with
  | None => True
  | Some e => similarTo Sim dst vSrc e
  end.
Proof.
  unfold similarField.
  destruct (mapGet k (asMap descr)) as [[t|md|o]|]; [| | |tauto].
  - simpl. destruct vSrc;
      try (split; [discriminate|intros (s0 & H & _); discriminate H]).
    destruct (mapGet t dst) as [[]|] eqn:Hget;
      try (split; [discriminate|intros (s0 & _ & H); discriminate H]).
    destruct (String.eqb_spec s s0) as [->|Hne]; simpl.
    + split; [|reflexivity]. intros _. now exists s0.
    + split; [discriminate|]. intros (s1 & [= ->] & [= ->]). now destruct Hne.
  - simpl.
    destruct (Z.eqb_spec (Type_ md) MapTranslation) as [Hty|Hty].
    { rewrite Hty. split.
      - destruct vSrc; try discriminate.
        destruct (mapGet (TargetName md) dst) as [[]|]; try discriminate.
        destruct (Sim m m0 (SubTranslation md)) as [[|] e] eqn:E;
          [|discriminate].
        intros _. left. split; [reflexivity|].
        exists m, m0. repeat split. now rewrite E.
      - intros [(_ & m & dm & -> & Hget & HS)|(Habs & _)]; [|discriminate Habs].
        rewrite Hget.
        destruct (Sim m dm (SubTranslation md)) as [[|] e]; [reflexivity|].
        discriminate HS. }
    destruct (Z.eqb_spec (Type_ md) MapArrayTranslation) as [Hty2|Hty2].
    { split.
      - destruct (Decode vSrc) as [e|srcMaps] eqn:Hsrc; [discriminate|].
        destruct (mapGet (TargetName md) dst) as [dstVal|]; [|discriminate].
        destruct (Decode dstVal) as [e|dstMaps] eqn:Hdst; [discriminate|].
        destruct (Nat.eqb_spec (length srcMaps) (length dstMaps)) as [Hlen|Hlen];
          [|discriminate].
        simpl negb. cbv iota. unfold indexed.
        destruct (rangeOver _ _ _) as [[]|r] eqn:E; [|discriminate].
        intros _. right. split; [exact Hty2|].
        exists srcMaps, dstVal, dstMaps. repeat split; try assumption.
        apply (Forall2_nth_error _ ([] : Record)). split; [exact Hlen|].
        exact (proj1 (similarElement_loop_iff _ _ _ _ 0) E).
      - intros [(Habs & _)|(_ & srcMaps & dstVal & dstMaps & Hsrc & Hget & Hdst & HF)];
          [contradiction|].
        rewrite Hsrc, Hget, Hdst.
        apply (Forall2_nth_error _ ([] : Record)) in HF. destruct HF as [Hlen HF].
        rewrite Hlen, Nat.eqb_refl. simpl negb. cbv iota. unfold indexed.
        now rewrite (proj2 (similarElement_loop_iff Sim dstMaps _ srcMaps 0) HF). }
    split; [discriminate|]. intros [(H & _)|(H & _)]; contradiction.
  - simpl. split; [discriminate|contradiction].
Qed.

(** Every [return] inside the loop of [IsSimilar] says [false]; it carries
    an error if the recursive calls do. *)
Lemma similarField_Return (Sim : Record -> Record -> Descr -> Similar)
    (dst : Record) (descr : Descr) (u : unit) (kv : string * Value)
    (r : Similar) :
  (forall s t d, depth d < depth descr ->
                 fst (Sim s t d) = false -> snd (Sim s t d) <> None) ->
  similarField Sim dst descr u kv = Return r ->
  fst r = false /\ snd r <> None.
Proof.
  intros HS. destruct kv as [k vSrc]. unfold similarField.
  destruct descr as [descr|]; [|discriminate]. simpl asMap.
  destruct (mapGet k descr) as [[t|md|o]|] eqn:Hget; [| | |discriminate].
  - destruct vSrc; try (intros [= <-]; split; [reflexivity|discriminate]).
    destruct (mapGet t dst) as [[]|];
      try (intros [= <-]; split; [reflexivity|discriminate]).
    destruct (negb _); [|discriminate].
    intros [= <-]; split; [reflexivity|discriminate].
  - pose proof (depth_SubTranslation _ _ Hget) as Hd.
    destruct (Z.eqb (Type_ md) MapTranslation).
    { destruct vSrc; try (intros [= <-]; split; [reflexivity|discriminate]).
      destruct (mapGet (TargetName md) dst) as [[]|];
        try (intros [= <-]; split; [reflexivity|discriminate]).
      destruct (Sim m m0 (SubTranslation md)) as [[|] e] eqn:E; [discriminate|].
      intros [= <-]. split; [reflexivity|].
      specialize (HS m m0 _ Hd). rewrite E in HS. now apply HS. }
    destruct (Z.eqb (Type_ md) MapArrayTranslation);
      [|intros [= <-]; split; [reflexivity|discriminate]].
    destruct (Decode vSrc) as [e|srcMaps];
      [intros [= <-]; split; [reflexivity|discriminate]|].
    destruct (mapGet (TargetName md) dst) as [dstVal|];
      [|intros [= <-]; split; [reflexivity|discriminate]].
    destruct (Decode dstVal) as [e|dstMaps];
      [intros [= <-]; split; [reflexivity|discriminate]|].
    destruct (negb _); [intros [= <-]; split; [reflexivity|discriminate]|].
    destruct (rangeOver _ _ _) as [[]|r'] eqn:E; [discriminate|].
    intros [= <-]. apply rangeOver_Return_In in E.
    destruct E as ([] & [i val] & _ & E). unfold similarElement in E.
    destruct (Sim val (nth i dstMaps []) (SubTranslation md)) as [[|] e] eqn:E';
      [discriminate|].
    injection E as <-. split; [reflexivity|].
    specialize (HS val (nth i dstMaps []) _ Hd). rewrite E' in HS. now apply HS.
  - intros [= <-]; split; [reflexivity|discriminate].
Qed.

(** X1.  [IsSimilar] returns either [true] with a nil error or [false]
    with an error: the error is nil exactly when the verdict is [true]. *)
Theorem IsSimilar_verdict_and_error (src dst : Record) (descr : Descr) :
  IsSimilar src dst descr = (true, None) \/
  exists err, IsSimilar src dst descr = (false, Some err).
Proof.
  remember (S (depth descr)) as n eqn:Hn.
  assert (Hd : depth descr < n) by lia. clear Hn.
  revert descr Hd src dst.
  induction n as [|n IH]; intros descr Hd src dst; [lia|].
  rewrite IsSimilar_unfold. unfold IsSimilarBody.
  destruct (rangeOver (similarField IsSimilar dst descr) src tt) as [[]|r] eqn:E;
    [now left|].
  apply rangeOver_Return_In in E. destruct E as (u & kv & _ & E).
  apply similarField_Return in E.
  - destruct r as [b [e|]]; simpl in E; destruct E as [-> He];
      [right; now exists e|now destruct He].
  - intros s t d Hdd Hf.
    destruct (IH d ltac:(lia) s t) as [H|[err H]]; rewrite H in *;
      [discriminate Hf|discriminate].
Qed.

Lemma similarField_Return_false (Sim : Record -> Record -> Descr -> Similar)
    (dst : Record) (descr : Descr) (k : string) (vSrc : Value) (r : Similar) :
  similarField Sim dst descr tt (k, vSrc) = Return r -> fst r = false.
Proof.
  unfold similarField.
  destruct (mapGet k (asMap descr)) as [[t|md|o]|]; [| | |discriminate].
  - destruct vSrc; try (now intros [= <-]).
    destruct (mapGet t dst) as [[]|]; try (now intros [= <-]).
    destruct (negb _); [now intros [= <-]|discriminate].
  - destruct (Z.eqb (Type_ md) MapTranslation).
    { destruct vSrc; try (now intros [= <-]).
      destruct (mapGet (TargetName md) dst) as [[]|]; try (now intros [= <-]).
      destruct (Sim m m0 (SubTranslation md)) as [[|] e];
        [discriminate|now intros [= <-]]. }
    destruct (Z.eqb (Type_ md) MapArrayTranslation); [|now intros [= <-]].
    destruct (Decode vSrc) as [e|srcMaps]; [now intros [= <-]|].
    destruct (mapGet (TargetName md) dst) as [dstVal|]; [|now intros [= <-]].
    destruct (Decode dstVal) as [e|dstMaps]; [now intros [= <-]|].
    destruct (negb _); [now intros [= <-]|].
    destruct (rangeOver _ _ _) as [[]|r'] eqn:E; [discriminate|].
    intros [= <-]. apply rangeOver_Return_In in E.
    destruct E as ([] & [i val] & _ & E). unfold similarElement in E.
    destruct (Sim val (nth i dstMaps []) (SubTranslation md)) as [[|] e];
      [discriminate|]. now injection E as <-.
  - now intros [= <-].
Qed.

(** The verdict is [true] exactly when the loop runs to its end. *)
Lemma IsSimilar_true_fields (src dst : Record) (descr : Descr) :
  fst (IsSimilar src dst descr) = true <->
  (forall kv, In kv src -> similarField IsSimilar dst descr tt kv = Next tt).
Proof.
  rewrite IsSimilar_unfold. unfold IsSimilarBody.
  rewrite <- rangeOver_unit_Next.
  destruct (rangeOver (similarField IsSimilar dst descr) src tt) as [[]|r] eqn:E.
  - tauto.
  - apply rangeOver_Return_In in E. destruct E as ([] & [k v] & _ & E).
    apply similarField_Return_false in E. rewrite E.
    split; discriminate.
Qed.

(** X2.  [IsSimilar(src, dst, descr)] returns [true] with a nil error
    exactly when every field of the source that has an entry in the
    description is similar to what the destination holds under the target
    name: for a rename, the same string; for a [MapTranslation], a map that
    is similar for the sub-description; for a [MapArrayTranslation], a value
    that decodes to as many maps, similar index by index.  A field described
    by any other entry makes it return [false]. *)
Theorem IsSimilar_accepts_iff (src dst : Record) (descr : Descr) :
  IsSimilar src dst descr = (true, None) <->
  (forall k vSrc e,
      In (k, vSrc) src -> mapGet k (asMap descr) = Some e ->
      similarTo IsSimilar dst vSrc e).
Proof.
  split.
  - intros H k vSrc e Hin Hget.
    assert (Ht : fst (IsSimilar src dst descr) = true) by now rewrite H.
    pose proof (proj1 (IsSimilar_true_fields src dst descr) Ht _ Hin) as Hf.
    apply similarField_Next_iff in Hf. now rewrite Hget in Hf.
  - intros H. rewrite IsSimilar_unfold. unfold IsSimilarBody.
    rewrite (proj2 (rangeOver_unit_Next (similarField IsSimilar dst descr) src));
      [reflexivity|].
    intros [k v] Hin. apply similarField_Next_iff.
    destruct (mapGet k (asMap descr)) as [e|] eqn:Hget; [|exact I].
    exact (H k v e Hin Hget).
Qed.

(** X3.  The verdict of [IsSimilar] does not depend on the order in which
    the source map is ranged over. *)
Theorem IsSimilar_source_order (src src' dst : Record) (descr : Descr) :
  Permutation src src' ->
  fst (IsSimilar src dst descr) = fst (IsSimilar src' dst descr).
Proof.
  intros Hperm. apply Bool.eq_true_iff_eq.
  rewrite !IsSimilar_true_fields. split; intros H kv Hin; apply H.
  - now apply (Permutation_in _ (Permutation_sym Hperm)).
  - now apply (Permutation_in _ Hperm).
Qed.

(** ** What [Translate] returns *)

(** The second loop at a [Description], with the target name resolved. *)
Lemma translateField_Description (T : Record -> Descr -> Translated)
    (src : Record) (description : list (string * Entry)) (result : Record)
    (attr : string) (value : Value) (md : Description) :
  mapGet attr description = Some (EDescription md) ->
  translateField T src description result (attr, value) =
  let target := targetOf (attr, EDescription md) in
  if Z.eqb (Type_ md) CustomTranslation then
    match MapFunc md with
    | None =>
        Return (None, Some (NewInternalError
                              ("missing translation func for " ++ attr)))
    | Some mapFunc =>
        match mapFunc value with
        | (_, Some err) =>
            Return (None, Some (NewInvalidProp attr (Error Sprintf err)))
        | (dstStr, None) => Next (mapSet target dstStr result)
        end
    end
  else if Z.eqb (Type_ md) MapTranslation then
    match value with
    | VMap srcMap =>
        match T srcMap (SubTranslation md) with
        | (_, Some err) => Return (None, Some err)
        | (trans, None) => Next (mapSet target (VMap (asMap trans)) result)
        end
    | _ =>
        Return (None, Some (NewInternalError
                              (Sprintf "invalid type for %v: %T"
                                 [ArgValue value; ArgValue value])))
    end
  else if Z.eqb (Type_ md) MapArrayTranslation then
    match Decode value with
    | inl err => Return (None, Some (NewInternalError (Error Sprintf err)))
    | inr srcMaps =>
        match rangeOver (translateElement T (SubTranslation md))
                (indexed srcMaps) (repeat [] (length srcMaps)) with
        | Return r => Return r
        | Next res => Next (mapSet target (VMaps res) result)
        end
    end
  else if Z.eqb (Type_ md) ModifyTranslation then
    match ModFunc md with
    | None =>
        Return (None, Some (NewInternalError
                              ("missing translation func for " ++ attr)))
    | Some modFunc =>
        match modFunc src result value with
        | (_, Some err) =>
            Return (None, Some (NewInvalidProp attr (Error Sprintf err)))
        | (result, None) => Next result
        end
    end
  else if Z.eqb (Type_ md) InsertTranslation then Next result
  else Return (None, Some (NewInternalError "Invalid Translation type")).
Proof.
  intros Hget. unfold translateField. rewrite Hget. unfold targetOf.
  cbn [fst snd]. cbv zeta.
  destruct (String.eqb (TargetName md) EmptyString) eqn:E; reflexivity.
Qed.

(** A [return] of the second loop carries a nil map and an error, except
    for a rename of a value that is not a string, which returns the result
    so far. *)
Lemma translateField_Return_shape (T : Record -> Descr -> Translated)
    (src : Record) (description : list (string * Entry)) (result : Record)
    (attr : string) (value : Value) (out : Translated) :
  translateField T src description result (attr, value) = Return out ->
  (exists err, out = (None, Some err)) \/
  (exists target reason,
      mapGet attr description = Some (EString target) /\
      (forall s, value <> VString s) /\
      out = (Some result, Some (InvalidPropertyError attr reason))).
Proof.
  destruct (mapGet attr description) as [[sc|md|o]|] eqn:Hget.
  - unfold translateField. rewrite Hget.
    destruct value; simpl; try discriminate;
      intros [= <-]; right; eexists _, _;
      (split; [reflexivity|split; [discriminate|reflexivity]]).
  - rewrite (@translateField_Description T src description result attr value md
               Hget). cbv zeta.
    destruct (Z.eqb (Type_ md) CustomTranslation).
    { destruct (MapFunc md) as [f|]; [|intros [= <-]; left; now eexists].
      destruct (f value) as [v [e|]]; [intros [= <-]; left; now eexists|discriminate]. }
    destruct (Z.eqb (Type_ md) MapTranslation).
    { destruct value; try (intros [= <-]; left; now eexists).
      destruct (T m (SubTranslation md)) as [trans [e|]];
        [intros [= <-]; left; now eexists|discriminate]. }
    destruct (Z.eqb (Type_ md) MapArrayTranslation).
    { destruct (Decode value) as [e|srcMaps]; [intros [= <-]; left; now eexists|].
      destruct (rangeOver _ _ _) as [res|r] eqn:E; [discriminate|].
      intros [= <-]. apply rangeOver_Return_In in E.
      destruct E as (s & [i val] & _ & E). unfold translateElement in E.
      destruct (T val (SubTranslation md)) as [trans [e|]]; [|discriminate].
      injection E as <-. left. now eexists. }
    destruct (Z.eqb (Type_ md) ModifyTranslation).
    { destruct (ModFunc md) as [f|]; [|intros [= <-]; left; now eexists].
      destruct (f src result value) as [r [e|]];
        [intros [= <-]; left; now eexists|discriminate]. }
    destruct (Z.eqb (Type_ md) InsertTranslation); [discriminate|].
    intros [= <-]; left; now eexists.
  - unfold translateField. rewrite Hget. intros [= <-]; left; now eexists.
  - unfold translateField. rewrite Hget. discriminate.
Qed.

(** X4.  [Translate] returns a map and a nil error, or a nil map and an
    error.  The one exception is a rename entry whose field is not a string:
    the error, an [InvalidPropertyError] naming the field, comes with the
    map built so far. *)
Theorem Translate_map_or_error (src : Record) (description : Descr)
    (m : option Record) (e : option error) :
  Translate src description = (m, e) ->
  (exists result, m = Some result /\ e = None) \/
  (m = None /\ exists err, e = Some err) \/
  (exists result attr value target reason,
      m = Some result /\
      e = Some (InvalidPropertyError attr reason) /\
      In (attr, value) src /\
      mapGet attr (asMap description) = Some (EString target) /\
      (forall s, value <> VString s)).
Proof.
  destruct description as [description|].
  2:{ change (Translate src None) with (Some src, @None error).
      intros [= <- <-]. left. now exists src. }
  rewrite Translate_phases. simpl asMap.
  destruct (rangeOver (checkMandatory src) description []) as [r1|out] eqn:E1.
  2:{ intros ->. apply rangeOver_Return_In in E1.
      destruct E1 as (s & [k [sc|md|o]] & _ & E1); simpl in E1;
        try discriminate.
      - destruct (Mandatory md); [|discriminate].
        destruct (mapGet k src); [discriminate|].
        injection E1 as <- <-. right. left. split; [reflexivity|now eexists].
      - injection E1 as <- <-. right. left. split; [reflexivity|now eexists]. }
  destruct (rangeOver (translateField Translate src description) src r1)
    as [r2|out] eqn:E2.
  2:{ intros ->. apply rangeOver_Return_In in E2.
      destruct E2 as (s & [attr value] & Hin & E2).
      apply translateField_Return_shape in E2.
      destruct E2 as [(err & [= -> ->])|(target & reason & Hget & Hv & [= -> ->])].
      - right. left. split; [reflexivity|now eexists].
      - right. right. now exists s, attr, value, target, reason. }
  destruct (rangeOver (insertMissing src) description r2) as [r3|out] eqn:E3;
    simpl.
  - intros [= <- <-]. left. now exists r3.
  - intros ->. apply rangeOver_Return_In in E3.
    destruct E3 as (s & [k [sc|md|o]] & _ & E3); simpl in E3; try discriminate.
    + destruct (negb _); [discriminate|].
      destruct (InsertFunc md) as [f|].
      * destruct (mapGet (TargetName md) s); [discriminate|].
        destruct (f src s k) as [r [v [err|]]]; [|discriminate].
        injection E3 as <- <-. right. left. split; [reflexivity|now eexists].
      * injection E3 as <- <-. right. left. split; [reflexivity|now eexists].
    + injection E3 as <- <-. right. left. split; [reflexivity|now eexists].
Qed.

(** X5.  With a description that is empty but not nil, [Translate] returns
    the empty map for every source: no field has an entry.  (The nil
    description returns the source.) *)
Theorem Translate_empty_description (src : Record) :
  Translate src (Some []) = (Some [], None).
Proof.
  rewrite Translate_phases. cbn [rangeOver].
  assert (H : forall fields result,
             rangeOver (translateField Translate src []) fields result =
             Next result).
  { induction fields as [|[k v] fields IH]; intros result; [reflexivity|].
    cbn [rangeOver].
    change (translateField Translate src [] result (k, v)) with
      (@Next Record Translated result). apply IH. }
  now rewrite H.
Qed.

(** ** The order of the description *)

Lemma checkMandatory_passes (src : Record) (description : list (string * Entry))
    (result : Record) :
  Forall (passesCheck src) description ->
  rangeOver (checkMandatory src) description result = Next result.
Proof.
  induction 1 as [|[k e] d He _ IH]; cbn [rangeOver]; [reflexivity|].
  unfold passesCheck in He; simpl in He. simpl.
  destruct e as [sc|md|o]; [exact IH| |contradiction].
  destruct (Mandatory md); [|exact IH].
  destruct (mapGet k src); [exact IH|]. now destruct (He eq_refl).
Qed.

Lemma mapGet_Some_In {V : Type} (k : string) (v : V) (m : list (string * V)) :
  uniqueKeys m -> (mapGet k m = Some v <-> In (k, v) m).
Proof.
  intros Hu. split; [apply mapGet_In|].
  induction m as [|[k' v'] m IH]; simpl; [contradiction|].
  inversion Hu as [|? ? Hnotin Hm]; subst.
  intros [[= -> ->]|Hin].
  - now rewrite String.eqb_refl.
  - destruct (String.eqb_spec k' k) as [->|_]; [|now apply IH].
    exfalso. apply Hnotin. unfold keys. now apply (in_map fst) in Hin.
Qed.

Lemma uniqueKeys_Permutation {V : Type} (m m' : list (string * V)) :
  Permutation m m' -> uniqueKeys m -> uniqueKeys m'.
Proof.
  intros Hp. unfold uniqueKeys, keys.
  apply Permutation_NoDup. now apply Permutation_map.
Qed.

(** Reading a map does not depend on the order of its entries. *)
Lemma mapGet_Permutation {V : Type} (k : string) (m m' : list (string * V)) :
  uniqueKeys m -> Permutation m m' -> mapGet k m = mapGet k m'.
Proof.
  intros Hu Hp. pose proof (uniqueKeys_Permutation Hp Hu) as Hu'.
  destruct (mapGet k m) as [v|] eqn:E.
  - symmetry. apply (mapGet_Some_In _ _ Hu').
    apply (Permutation_in _ Hp). now apply mapGet_In.
  - destruct (mapGet k m') as [v'|] eqn:E'; [|reflexivity].
    apply mapGet_In in E'. apply (Permutation_in _ (Permutation_sym Hp)) in E'.
    apply (mapGet_Some_In _ _ Hu) in E'. congruence.
Qed.

(** X6.  The first loop of [Translate] passes exactly when every entry of
    the description is a string or a [Description] and the key of every
    mandatory one is in the source; whether it passes does not depend on the
    order in which the description is ranged over. *)
Theorem mandatory_check_any_order (src : Record)
    (description description' : list (string * Entry)) :
  Permutation description description' ->
  (rangeOver (checkMandatory src) description [] = Next [] <->
   Forall (passesCheck src) description) /\
  (rangeOver (checkMandatory src) description [] = Next [] <->
   rangeOver (checkMandatory src) description' [] = Next []).
Proof.
  intros Hp.
  assert (Hiff : forall d,
             rangeOver (checkMandatory src) d [] = Next [] <->
             Forall (passesCheck src) d).
  { intros d. split; [|apply checkMandatory_passes].
    intros H. now apply checkMandatory_Next in H. }
  split; [apply Hiff|]. rewrite !Hiff. rewrite !Forall_forall.
  split; intros H x Hx; apply H.
  - now apply (Permutation_in _ (Permutation_sym Hp)).
  - now apply (Permutation_in _ Hp).
Qed.

(** X7.  When the description has no [InsertTranslation] and the first
    loop passes, what [Translate] returns does not depend on the order in
    which the description is ranged over. *)
Theorem Translate_description_order (src : Record)
    (description description' : list (string * Entry)) :
  uniqueKeys description ->
  Permutation description description' ->
  Forall notInsertion description ->
  Forall (passesCheck src) description ->
  Translate src (Some description) = Translate src (Some description').
Proof.
  intros Hu Hp Hni Hpass.
  assert (Hni' : Forall notInsertion description')
    by (rewrite Forall_forall in *; intros x Hx; apply Hni;
        now apply (Permutation_in _ (Permutation_sym Hp))).
  assert (Hpass' : Forall (passesCheck src) description')
    by (rewrite Forall_forall in *; intros x Hx; apply Hpass;
        now apply (Permutation_in _ (Permutation_sym Hp))).
  rewrite !Translate_phases.
  rewrite (checkMandatory_passes [] Hpass), (checkMandatory_passes [] Hpass').
  rewrite (rangeOver_ext (translateField Translate src description)
             (translateField Translate src description')).
  2:{ intros s [attr value] _. unfold translateField.
      now rewrite (mapGet_Permutation attr Hu Hp). }
  destruct (rangeOver (translateField Translate src description') src [])
    as [r2|out]; [|reflexivity].
  now rewrite (insertMissing_notInsertion Sprintf src r2 Hni),
    (insertMissing_notInsertion Sprintf src r2 Hni').
Qed.

(** ** What the second loop stores *)

Lemma Forall2_translations (sub : Descr) (ms : list Record) :
  Forall (fun m => snd (Translate m sub) = None) ms ->
  Forall2 (fun m r => Translate m sub = (Some r, None)) ms
    (map (fun m => asMap (fst (Translate m sub))) ms).
Proof.
  induction 1 as [|m ms Hm _ IH]; simpl; constructor; [|exact IH].
  destruct (Translate m sub) as [x e] eqn:E. simpl in Hm. subst e.
  pose proof E as E'. eapply Translate_success in E'. destruct E' as [r ->].
  reflexivity.
Qed.

(** Without [ModifyTranslation] and [InsertTranslation], what an iteration
    of the second loop does is the same whatever the result so far: it
    passes over a field without entry, it stores a value under the target
    name of the entry, or it returns. *)
Lemma translateField_effect (src : Record) (description : list (string * Entry))
    (k : string) (v : Value) :
  withoutHooks description ->
  (mapGet k description = None /\
   forall r, translateField Translate src description r (k, v) = Next r) \/
  (exists e w,
      mapGet k description = Some e /\ stored Translate v e w /\
      forall r, translateField Translate src description r (k, v) =
                Next (mapSet (targetOf (k, e)) w r)) \/
  (forall r, exists out,
      translateField Translate src description r (k, v) = Return out).
Proof.
  intros Hno.
  destruct (mapGet k description) as [[sc|md|o]|] eqn:Hget.
  - destruct v;
      try (right; right; intros r; unfold translateField; rewrite Hget;
           eexists; reflexivity).
    right. left. exists (EString sc), (VString (TrimSpace s)).
    split; [reflexivity|]. split; [now exists s|].
    intros r. unfold translateField. now rewrite Hget.
  - pose proof (mapGet_In _ _ Hget) as Hin.
    unfold withoutHooks in Hno. rewrite Forall_forall in Hno.
    specialize (Hno _ Hin). simpl in Hno. destruct Hno as [Hmod Hins].
    apply Z.eqb_neq in Hmod, Hins.
    assert (Hstep : forall r,
               translateField Translate src description r (k, v) = _)
      by (intros r;
          exact (@translateField_Description Translate src description r k v md
                   Hget)).
    cbv zeta in Hstep. rewrite Hmod, Hins in Hstep.
    destruct (Z.eqb_spec (Type_ md) CustomTranslation) as [Hc|Hc].
    { destruct (MapFunc md) as [f|] eqn:Hf;
        [|right; right; intros r; rewrite Hstep; now eexists].
      destruct (f v) as [w [err|]] eqn:Hfv;
        [right; right; intros r; rewrite Hstep; now eexists|].
      right. left. exists (EDescription md), w.
      split; [reflexivity|]. split; [|exact Hstep].
      left. split; [exact Hc|]. now exists f. }
    destruct (Z.eqb_spec (Type_ md) MapTranslation) as [Hm|Hm].
    { destruct v; try (right; right; intros r; rewrite Hstep; now eexists).
      destruct (Translate m (SubTranslation md)) as [trans [err|]] eqn:E;
        [right; right; intros r; rewrite Hstep; now eexists|].
      pose proof E as E'. eapply Translate_success in E'.
      destruct E' as [r0 ->].
      right. left. exists (EDescription md), (VMap r0).
      split; [reflexivity|]. split; [|exact Hstep].
      right. left. split; [exact Hm|]. now exists m, r0. }
    destruct (Z.eqb_spec (Type_ md) MapArrayTranslation) as [Ha|Ha];
      [|right; right; intros r; rewrite Hstep; now eexists].
    destruct (Decode v) as [err|ms] eqn:Hdec;
      [right; right; intros r; rewrite Hstep; now eexists|].
    destruct (rangeOver (translateElement Translate (SubTranslation md))
                (indexed ms) (repeat [] (length ms))) as [res|out] eqn:E;
      [|right; right; intros r; rewrite Hstep; now eexists].
    right. left. exists (EDescription md), (VMaps res).
    split; [reflexivity|]. split; [|exact Hstep].
    right. right. split; [exact Ha|]. exists ms, res.
    split; [exact Hdec|]. split; [|reflexivity].
    pose proof (translateElement_loop_success _ _ _ _ _ E) as HF.
    pose proof (@translateElement_loop_Next Translate (SubTranslation md) _ []
                  HF) as Hloop.
    pose proof (eq_trans (eq_sym E) Hloop) as Heq. injection Heq as ->.
    now apply Forall2_translations.
  - right. right. intros r. unfold translateField. rewrite Hget. now eexists.
  - left. split; [reflexivity|].
    intros r. unfold translateField. now rewrite Hget.
Qed.

Lemma sameContent_mapSet (t : string) (w : Value) (r r' : Record) :
  sameContent r r' -> sameContent (mapSet t w r) (mapSet t w r').
Proof.
  intros H k. destruct (string_dec t k) as [->|Hne].
  - now rewrite !mapGet_mapSet_same.
  - now rewrite !mapGet_mapSet_other.
Qed.

Lemma sameContent_mapSet_swap (t1 t2 : string) (w1 w2 : Value) (r r' : Record) :
  t1 <> t2 -> sameContent r r' ->
  sameContent (mapSet t1 w1 (mapSet t2 w2 r)) (mapSet t2 w2 (mapSet t1 w1 r')).
Proof.
  intros Hne H k.
  destruct (string_dec t1 k) as [->|H1].
  - rewrite mapGet_mapSet_same, mapGet_mapSet_other by congruence.
    now rewrite mapGet_mapSet_same.
  - rewrite mapGet_mapSet_other by exact H1.
    destruct (string_dec t2 k) as [->|H2].
    + now rewrite !mapGet_mapSet_same.
    + now rewrite !mapGet_mapSet_other.
Qed.

(** Fields with different keys are stored under different target names. *)
Lemma targets_differ (description : list (string * Entry)) (k1 k2 : string)
    (e1 e2 : Entry) :
  NoDup (map targetOf description) ->
  mapGet k1 description = Some e1 -> mapGet k2 description = Some e2 ->
  k1 <> k2 -> targetOf (k1, e1) <> targetOf (k2, e2).
Proof.
  intros Hnd H1 H2 Hne Heq.
  assert (Hsame : (k1, e1) = (k2, e2)).
  { eapply targetOf_injective; [exact Hnd| | |exact Heq]; now apply mapGet_In. }
  now injection Hsame.
Qed.

(** The loop leaves a target name alone if no field it visits is stored
    under it. *)
Lemma translateField_loop_keeps (src : Record)
    (description : list (string * Entry)) (rest : Record)
    (result result' : Record) (t : string) :
  withoutHooks description ->
  rangeOver (translateField Translate src description) rest result =
    Next result' ->
  (forall k v e, In (k, v) rest -> mapGet k description = Some e ->
                 targetOf (k, e) <> t) ->
  mapGet t result' = mapGet t result.
Proof.
  intros Hno. revert result.
  induction rest as [|[k v] rest IH]; intros result; cbn [rangeOver].
  - now intros [= <-].
  - destruct (translateField Translate src description result (k, v))
      as [result1|out] eqn:E; [|discriminate].
    intros Hloop Hother.
    rewrite (IH result1 Hloop)
      by (intros k' v' e' Hin; apply (Hother k' v' e'); now right).
    destruct (translateField_effect src k v Hno)
      as [(_ & H)|[(e & w & Hget & _ & H)|H]].
    + rewrite H in E. now injection E as <-.
    + rewrite H in E. injection E as <-.
      apply mapGet_mapSet_other. apply (Hother k v e); [now left|exact Hget].
    + destruct (H result) as [o Ho]. congruence.
Qed.

(** After the loop, the result holds what was stored for each field, and
    nothing else beyond what it held before. *)
Lemma translateField_loop_stores (src : Record)
    (description : list (string * Entry)) (fields : Record)
    (result result' : Record) :
  withoutHooks description ->
  NoDup (map targetOf description) ->
  uniqueKeys fields ->
  rangeOver (translateField Translate src description) fields result =
    Next result' ->
  (forall k v e,
      In (k, v) fields -> mapGet k description = Some e ->
      exists w, stored Translate v e w /\
                mapGet (targetOf (k, e)) result' = Some w) /\
  (forall t w,
      mapGet t result' = Some w ->
      mapGet t result = Some w \/
      exists k v e,
        In (k, v) fields /\ mapGet k description = Some e /\
        targetOf (k, e) = t /\ stored Translate v e w).
Proof.
  intros Hno Hnd. revert result.
  induction fields as [|[k0 v0] rest IH]; intros result Huniq; cbn [rangeOver].
  - intros [= <-]. split; [intros k v e []|]. intros t w H. now left.
  - inversion Huniq as [|? ? Hnotin Hrest]; subst.
    destruct (translateField Translate src description result (k0, v0))
      as [result1|out] eqn:E; [|discriminate].
    intros Hloop. destruct (IH result1 Hrest Hloop) as [IH1 IH2].
    assert (Hkeys : forall k v, In (k, v) rest -> k0 <> k).
    { intros k v Hin ->. apply Hnotin. unfold keys.
      now apply (in_map fst) in Hin. }
    destruct (translateField_effect src k0 v0 Hno)
      as [(Hget0 & H)|[(e0 & w0 & Hget0 & Hst0 & H)|H]].
    + rewrite H in E. injection E as <-. split.
      * intros k v e [[= -> ->]|Hin] Hget; [congruence|].
        exact (IH1 k v e Hin Hget).
      * intros t w Ht. destruct (IH2 t w Ht) as [Hr|(k & v & e & Hin & Hr)];
          [now left|right]. exists k, v, e. split; [now right|exact Hr].
    + rewrite H in E. injection E as <-. split.
      * intros k v e [[= -> ->]|Hin] Hget; [|exact (IH1 k v e Hin Hget)].
        assert (e = e0) by congruence. subst e. exists w0.
        split; [exact Hst0|].
        rewrite (@translateField_loop_keeps src description rest _ result' _ Hno
                   Hloop).
        -- apply mapGet_mapSet_same.
        -- intros k' v' e' Hin' Hget'.
           apply (@targets_differ description k' k e' e0 Hnd Hget' Hget0).
           intros ->. now apply (Hkeys k v').
      * intros t w Ht. destruct (IH2 t w Ht) as [Hr|(k & v & e & Hin & Hr)].
        -- destruct (string_dec (targetOf (k0, e0)) t) as [Heq|Hne].
           ++ right. exists k0, v0, e0. split; [now left|].
              split; [exact Hget0|]. split; [exact Heq|].
              rewrite <- Heq, mapGet_mapSet_same in Hr. now injection Hr as <-.
           ++ left. now rewrite mapGet_mapSet_other in Hr.
        -- right. exists k, v, e. split; [now right|exact Hr].
    + destruct (H result) as [o Ho]. congruence.
Qed.

(** X8.  For a description without [ModifyTranslation] and
    [InsertTranslation] whose entries have pairwise distinct target names:
    when [Translate] succeeds, the result holds, under the target name of
    each field of the source that has an entry, what the entry produces
    from the field (the trimmed string of a rename, the value of [MapFunc],
    the translation of the nested map or of each decoded map in order), and
    it holds nothing else. *)
Theorem Translate_stores_what_entries_produce (src result : Record)
    (description : list (string * Entry)) :
  withoutHooks description ->
  NoDup (map targetOf description) ->
  uniqueKeys src ->
  Translate src (Some description) = (Some result, None) ->
  (forall k v e,
      In (k, v) src -> mapGet k description = Some e ->
      exists w, stored Translate v e w /\
                mapGet (targetOf (k, e)) result = Some w) /\
  (forall t w,
      mapGet t result = Some w ->
      exists k v e,
        In (k, v) src /\ mapGet k description = Some e /\
        targetOf (k, e) = t /\ stored Translate v e w).
Proof.
  intros Hno Hnd Huniq. rewrite Translate_phases.
  destruct (rangeOver (checkMandatory src) description []) as [r1|out] eqn:E1.
  2:{ intros ->. apply rangeOver_Return_In in E1.
      destruct E1 as (s & x & _ & E1).
      apply checkMandatory_Return_error in E1. now destruct E1. }
  apply checkMandatory_Next in E1. destruct E1 as [-> Hpass].
  destruct (rangeOver (translateField Translate src description) src [])
    as [r2|out] eqn:E2.
  2:{ intros ->. apply rangeOver_Return_In in E2.
      destruct E2 as (s & x & _ & E2).
      apply translateField_Return_error in E2. now destruct E2. }
  rewrite (@insertMissing_withoutHooks Sprintf Decode src description r2 Hno
             Hpass).
  simpl.
  intros [= <-].
  destruct (@translateField_loop_stores src description src [] r2 Hno Hnd
              Huniq E2) as [H1 H2].
  split; [exact H1|]. intros t w Ht.
  destruct (H2 t w Ht) as [Habs|H]; [discriminate Habs|exact H].
Qed.

(** ** The order of the source *)

(** The loop from two results with the same content ends in results with
    the same content. *)
Lemma translateField_loop_sameContent (src : Record)
    (description : list (string * Entry)) (fields : Record) :
  withoutHooks description ->
  forall r r' a,
    rangeOver (translateField Translate src description) fields r = Next a ->
    sameContent r r' ->
    exists b,
      rangeOver (translateField Translate src description) fields r' = Next b /\
      sameContent a b.
Proof.
  intros Hno. induction fields as [|[k v] fields IH]; intros r r' a;
    cbn [rangeOver].
  - intros [= <-] Hsame. now exists r'.
  - destruct (translateField_effect src k v Hno)
      as [(_ & H)|[(e & w & _ & _ & H)|H]].
    + rewrite !H. apply IH.
    + rewrite !H. intros Hloop Hsame. eapply IH; [exact Hloop|].
      now apply sameContent_mapSet.
    + destruct (H r) as [o ->]. discriminate.
Qed.

Lemma translateField_loop_Permutation (src : Record)
    (description : list (string * Entry)) (xs ys : Record) :
  withoutHooks description ->
  NoDup (map targetOf description) ->
  Permutation xs ys ->
  uniqueKeys xs ->
  forall r r' a,
    sameContent r r' ->
    rangeOver (translateField Translate src description) xs r = Next a ->
    exists b,
      rangeOver (translateField Translate src description) ys r' = Next b /\
      sameContent a b.
Proof.
  intros Hno Hnd Hperm.
  induction Hperm as [|[k v] xs ys Hperm IH|[k1 v1] [k2 v2] l|xs zs ys H1 IH1 H2 IH2];
    intros Huniq r r' a Hsame.
  - intros [= <-]. now exists r'.
  - inversion Huniq as [|? ? _ Hxs]; subst. cbn [rangeOver].
    destruct (translateField_effect src k v Hno)
      as [(_ & H)|[(e & w & _ & _ & H)|H]].
    + rewrite !H. now apply IH.
    + rewrite !H. apply IH; [exact Hxs|]. now apply sameContent_mapSet.
    + destruct (H r) as [o ->]. discriminate.
  - inversion Huniq as [|? ? Hnotin _]; subst.
    assert (Hne : k1 <> k2) by (intros ->; apply Hnotin; now left).
    cbn [rangeOver].
    destruct (translateField Translate src description r (k2, v2))
      as [r1|o] eqn:E2; [|discriminate].
    destruct (translateField Translate src description r1 (k1, v1))
      as [r2|o] eqn:E1; [|discriminate].
    intros Hloop.
    destruct (translateField_effect src k2 v2 Hno)
      as [(_ & Hb)|[(e2 & w2 & Hg2 & _ & Hb)|Hb]];
      [| |destruct (Hb r) as [o Ho]; congruence];
      (destruct (translateField_effect src k1 v1 Hno)
        as [(_ & Ha)|[(e1 & w1 & Hg1 & _ & Ha)|Ha]];
       [| |destruct (Ha r1) as [o Ho]; congruence]);
      rewrite Hb in E2; injection E2 as <-;
      rewrite Ha in E1; injection E1 as <-;
      rewrite !Ha, !Hb;
      (eapply translateField_loop_sameContent; [exact Hno|exact Hloop|]).
    + exact Hsame.
    + now apply sameContent_mapSet.
    + now apply sameContent_mapSet.
    + apply sameContent_mapSet_swap; [|exact Hsame].
      exact (@targets_differ description k1 k2 e1 e2 Hnd Hg1 Hg2 Hne).
  - intros Hloop.
    destruct (IH1 Huniq r r' a Hsame Hloop) as (b1 & Hb1 & Hs1).
    destruct (IH2 (uniqueKeys_Permutation H1 Huniq) r' r' b1
                (fun k => eq_refl) Hb1) as (b & Hb & Hs2).
    exists b. split; [exact Hb|]. intros k. now rewrite Hs1, Hs2.
Qed.

Lemma mapGet_None_Permutation {V : Type} (k : string) (m m' : list (string * V)) :
  Permutation m m' -> (mapGet k m = None <-> mapGet k m' = None).
Proof.
  intros Hp. rewrite !mapGet_None_keys. unfold keys.
  pose proof (Permutation_map fst Hp) as Hk.
  split; intros H Hin; apply H.
  - now apply (Permutation_in _ (Permutation_sym Hk)).
  - now apply (Permutation_in _ Hk).
Qed.

(** X9.  For a description without [ModifyTranslation] and
    [InsertTranslation] whose entries have pairwise distinct target names,
    the outcome of [Translate] does not depend on the order in which the
    source map is ranged over: if it succeeds in one order it succeeds in
    every order, with a result of the same content. *)
Theorem Translate_source_order (src src' result : Record)
    (description : list (string * Entry)) :
  withoutHooks description ->
  NoDup (map targetOf description) ->
  uniqueKeys src ->
  Permutation src src' ->
  Translate src (Some description) = (Some result, None) ->
  exists result',
    Translate src' (Some description) = (Some result', None) /\
    sameContent result result'.
Proof.
  intros Hno Hnd Huniq Hperm. rewrite !Translate_phases.
  rewrite <- (checkMandatory_src Sprintf src src' description []
                (fun k e _ => mapGet_None_Permutation k Hperm)).
  destruct (rangeOver (checkMandatory src) description []) as [r1|out] eqn:E1.
  2:{ intros ->. apply rangeOver_Return_In in E1.
      destruct E1 as (s & x & _ & E1).
      apply checkMandatory_Return_error in E1. now destruct E1. }
  apply checkMandatory_Next in E1. destruct E1 as [-> Hpass].
  assert (Hpass' : Forall (passesCheck src') description).
  { rewrite Forall_forall in *. intros [k e] Hin. specialize (Hpass _ Hin).
    unfold passesCheck in *; simpl in *. destruct e; try exact Hpass.
    intros Hm Hnone. apply (Hpass Hm).
    now apply (mapGet_None_Permutation k Hperm). }
  destruct (rangeOver (translateField Translate src description) src [])
    as [r2|out] eqn:E2.
  2:{ intros ->. apply rangeOver_Return_In in E2.
      destruct E2 as (s & x & _ & E2).
      apply translateField_Return_error in E2. now destruct E2. }
  rewrite (@insertMissing_withoutHooks Sprintf Decode src description r2 Hno
             Hpass). simpl. intros [= <-].
  destruct (@translateField_loop_Permutation src description src src' Hno Hnd
              Hperm Huniq [] [] r2 (fun k => eq_refl) E2) as (b & Hb & Hsame).
  exists b. split; [|exact Hsame].
  rewrite (rangeOver_ext (translateField Translate src' description)
             (translateField Translate src description)).
  2:{ intros s x _. now apply translateField_src. }
  rewrite Hb.
  now rewrite (@insertMissing_withoutHooks Sprintf Decode src' description b Hno
                 Hpass').
Qed.

End FurtherLaws.

(** ** The value mappers *)

Lemma hexDigit_In (c : ascii) : matchAtom hexDigit c = true -> In c hexDigits.
Proof.
  destruct c as [[] [] [] [] [] [] [] []]; intros H; try discriminate H;
    unfold hexDigits; simpl; repeat (first [left; reflexivity|right]).
Qed.

Lemma matchRepeat_hexGroup_inv (n : nat) (s s' : string) :
  matchRepeat hexDigit n s = Some s' ->
  exists g, hexGroup n g /\ s = (g ++ s')%string.
Proof.
  revert s. induction n as [|n IH]; intros s; cbn [matchRepeat].
  - intros [= ->]. exists EmptyString. split; [|reflexivity].
    split; [reflexivity|constructor].
  - destruct s as [|c s]; [discriminate|].
    destruct (matchAtom hexDigit c) eqn:Hc; [|discriminate].
    intros H. destruct (IH _ H) as (g & [Hlen Hall] & ->).
    exists (String c g). split; [|reflexivity].
    split; [simpl; now rewrite Hlen|].
    simpl. constructor; [now apply hexDigit_In|exact Hall].
Qed.

Lemma matchRepeat_hyphen_inv (s s' : string) :
  matchRepeat (Lit "-"%char) 1 s = Some s' -> s = ("-" ++ s')%string.
Proof.
  destruct s as [|c s]; cbn [matchRepeat matchAtom]; [discriminate|].
  destruct (Ascii.eqb_spec "-"%char c) as [<-|_]; [|discriminate].
  now intros [= ->].
Qed.

(** The expression accepts only strings that start with a canonical
    UUID. *)
Lemma validUUID_prefix_inv (s : string) :
  MatchString validUUID s = true ->
  exists u rest, canonicalUUID u /\ s = (u ++ rest)%string.
Proof.
  unfold validUUID. cbn [MatchString].
  destruct (matchRepeat hexDigit 8 s) as [s1|] eqn:E1; [|discriminate].
  destruct (matchRepeat (Lit "-"%char) 1 s1) as [s2|] eqn:E2; [|discriminate].
  destruct (matchRepeat hexDigit 4 s2) as [s3|] eqn:E3; [|discriminate].
  destruct (matchRepeat (Lit "-"%char) 1 s3) as [s4|] eqn:E4; [|discriminate].
  destruct (matchRepeat hexDigit 4 s4) as [s5|] eqn:E5; [|discriminate].
  destruct (matchRepeat (Lit "-"%char) 1 s5) as [s6|] eqn:E6; [|discriminate].
  destruct (matchRepeat hexDigit 4 s6) as [s7|] eqn:E7; [|discriminate].
  destruct (matchRepeat (Lit "-"%char) 1 s7) as [s8|] eqn:E8; [|discriminate].
  destruct (matchRepeat hexDigit 12 s8) as [s9|] eqn:E9; [|discriminate].
  intros _.
  apply matchRepeat_hexGroup_inv in E1, E3, E5, E7, E9.
  apply matchRepeat_hyphen_inv in E2, E4, E6, E8.
  destruct E1 as (g1 & H1 & ->), E3 as (g2 & H2 & ->), E5 as (g3 & H3 & ->),
    E7 as (g4 & H4 & ->), E9 as (g5 & H5 & ->). subst.
  exists (g1 ++ "-" ++ g2 ++ "-" ++ g3 ++ "-" ++ g4 ++ "-" ++ g5)%string, s9.
  split; [now exists g1, g2, g3, g4, g5|].
  repeat rewrite append_assoc. reflexivity.
Qed.

(** One step of [a*] and of [a+]. *)
Lemma MatchWhole_ZeroOrMore (a : atom) (re : Pattern) (s : string) :
  MatchWhole ((a, ZeroOrMore) :: re) s =
  MatchWhole re s ||
  match s with
  | EmptyString => false
  | String c s' => matchAtom a c && MatchWhole ((a, ZeroOrMore) :: re) s'
  end.
Proof. destruct s; reflexivity. Qed.

Lemma MatchWhole_OneOrMore (a : atom) (re : Pattern) (s : string) :
  MatchWhole ((a, OneOrMore) :: re) s =
  match s with
  | EmptyString => false
  | String c s' => matchAtom a c && MatchWhole ((a, ZeroOrMore) :: re) s'
  end.
Proof. destruct s; reflexivity. Qed.

Lemma identStart_spec (c : ascii) :
  matchAtom identStart c = true <-> isIdentStart c.
Proof.
  split.
  - destruct c as [[] [] [] [] [] [] [] []]; intros H; try discriminate H;
      unfold isIdentStart; simpl; repeat (first [left; reflexivity|right]).
  - unfold isIdentStart. simpl.
    intros H. repeat (destruct H as [<-|H]; [reflexivity|]). contradiction.
Qed.

Lemma identChar_spec (c : ascii) :
  matchAtom identChar c = true <-> isIdentChar c.
Proof.
  split.
  - destruct c as [[] [] [] [] [] [] [] []]; intros H; try discriminate H;
      unfold isIdentChar, isIdentStart; simpl;
      first [left; repeat (first [left; reflexivity|right]); fail
            |right; repeat (first [left; reflexivity|right])].
  - unfold isIdentChar, isIdentStart. simpl.
    intros [H|H]; repeat (destruct H as [<-|H]; [reflexivity|]);
      contradiction.
Qed.

Lemma identStart_identChar (c : ascii) :
  matchAtom identStart c = true -> matchAtom identChar c = true.
Proof. rewrite identStart_spec, identChar_spec. intros H. now left. Qed.

Lemma identChar_star (s : string) :
  MatchWhole [(identChar, ZeroOrMore)] s = true <->
  Forall isIdentChar (list_ascii_of_string s).
Proof.
  induction s as [|c s IH]; rewrite MatchWhole_ZeroOrMore.
  - simpl. split; [constructor|reflexivity].
  - cbn [list_ascii_of_string].
    change (MatchWhole [] (String c s)) with false.
    rewrite orb_false_l, andb_true_iff, IH, identChar_spec.
    split; [intros [Hc Hs]; now constructor|].
    intros H. inversion H; subst. now split.
Qed.

Lemma identStart_star_identChar_star (s : string) :
  MatchWhole [(identStart, ZeroOrMore); (identChar, ZeroOrMore)] s = true <->
  Forall isIdentChar (list_ascii_of_string s).
Proof.
  induction s as [|c s IH]; rewrite MatchWhole_ZeroOrMore.
  - simpl. split; [constructor|reflexivity].
  - rewrite orb_true_iff, andb_true_iff, IH, identChar_star.
    cbn [list_ascii_of_string]. split.
    + intros [H|[Hc Hs]]; [exact H|].
      constructor; [|exact Hs]. apply identChar_spec.
      now apply identStart_identChar.
    + intros H. now left.
Qed.

(** The expression accepts exactly the identifiers. *)
Lemma validID_identifier (s : string) :
  MatchWhole validID s = true <-> identifier s.
Proof.
  unfold validID. rewrite MatchWhole_OneOrMore.
  destruct s as [|c s]; [simpl; split; [discriminate|contradiction]|].
  rewrite andb_true_iff, identStart_spec, identStart_star_identChar_star.
  reflexivity.
Qed.

Lemma MissingKeys_fold (src : Record) (fields acc : list string) :
  fold_left
    (fun result v =>
       match mapGet v src with
       | Some _ => result
       | None => result ++ [v]
       end) fields acc =
  acc ++ filter (fun v => match mapGet v src with
                          | Some _ => false
                          | None => true
                          end) fields.
Proof.
  revert acc. induction fields as [|v fields IH]; intros acc; simpl.
  - now rewrite app_nil_r.
  - rewrite IH. destruct (mapGet v src); [reflexivity|].
    now rewrite <- app_assoc.
Qed.

Section MapperLaws.
Variable TrimSpace : string -> string.
Variable Sprintf : string -> list fmtArg -> string.
Variable ParseBool : string -> bool * option error.

Abbreviation UUIDMap := (UUIDMap TrimSpace Sprintf).
Abbreviation IdentifierMap := (IdentifierMap TrimSpace Sprintf).
Abbreviation BoolMap := (BoolMap Sprintf ParseBool).
Abbreviation BoolToStrMap := (BoolToStrMap Sprintf ParseBool).

(** X10.  [UUIDMap] succeeds only on a string whose trimmed value starts
    with a canonical 8-4-4-4-12 UUID, and then returns the trimmed
    string. *)
Theorem UUIDMap_accepts_only_prefix (s : string) (w : Value) :
  UUIDMap (VString s) = (w, None) ->
  w = VString (TrimSpace s) /\
  exists u rest, canonicalUUID u /\ TrimSpace s = (u ++ rest)%string.
Proof.
  unfold UUIDMap.
  destruct (MatchString validUUID (TrimSpace s)) eqn:E; simpl;
    [|discriminate].
  intros [= <-]. split; [reflexivity|]. now apply validUUID_prefix_inv.
Qed.

(** X11.  [IdentifierMap] succeeds on a string exactly when the string, as
    it is given, is an identifier: it starts with a letter or an underscore
    and has only letters, digits and underscores in it.  The check comes
    before the trimming, so that a string with white space around an
    identifier is rejected.  On success the trimmed string is returned; a
    value that is not a string is rejected. *)
Theorem IdentifierMap_accepts_identifiers :
  (forall s, snd (IdentifierMap (VString s)) = None <-> identifier s) /\
  (forall s w, IdentifierMap (VString s) = (w, None) ->
               w = VString (TrimSpace s)) /\
  (forall c s, ~ isIdentStart c ->
               snd (IdentifierMap (VString (String c s))) <> None) /\
  (forall v, (forall s, v <> VString s) -> snd (IdentifierMap v) <> None).
Proof.
  assert (Hiff : forall s, snd (IdentifierMap (VString s)) = None <->
                           identifier s).
  { intros s. rewrite <- validID_identifier. unfold IdentifierMap.
    destruct (MatchWhole validID s); simpl; split; congruence. }
  split; [exact Hiff|]. split; [|split].
  - intros s w. unfold IdentifierMap.
    destruct (MatchWhole validID s); simpl; [|discriminate].
    now intros [= <-].
  - intros c s Hc H. apply Hiff in H. simpl in H. now destruct H.
  - intros v Hv. destruct v; simpl; try discriminate.
    now destruct (Hv s).
Qed.

(** X12.  [BoolMap] returns a boolean whenever it succeeds, and a boolean
    is mapped to itself.  [BoolToStrMap] succeeds exactly when [BoolMap]
    does: it then returns ["True"] or ["False"] according to the boolean,
    and otherwise nil and the error of [BoolMap]. *)
Theorem BoolToStrMap_canonical (src : Value) :
  (forall b, src = VBool b -> BoolMap src = (VBool b, None)) /\
  ((exists b,
       BoolMap src = (VBool b, None) /\
       BoolToStrMap src = (VString (if b then "True" else "False"), None)) \/
   (exists w err,
       BoolMap src = (w, Some err) /\ BoolToStrMap src = (VNil, Some err))).
Proof.
  split; [now intros b ->|].
  unfold BoolToStrMap.
  destruct src; simpl; try (right; eexists _, _; split; reflexivity).
  - left. exists b. split; [reflexivity|]. now destruct b.
  - destruct (ParseBool s) as [result [err|]].
    + right. eexists _, _. split; reflexivity.
    + left. exists result. split; [reflexivity|]. now destruct result.
Qed.

End MapperLaws.

(** X13.  [MissingKeys] returns the fields that are not keys of the map,
    in the order of [fields] and as often as they occur there; it returns
    the empty list exactly when every field is a key. *)
Theorem MissingKeys_absent_fields (src : Record) (fields : list string) :
  MissingKeys src fields =
    filter (fun v => match mapGet v src with
                     | Some _ => false
                     | None => true
                     end) fields /\
  (forall k, In k (MissingKeys src fields) <->
             In k fields /\ mapGet k src = None) /\
  (MissingKeys src fields = [] <->
   forall k, In k fields -> mapGet k src <> None).
Proof.
  assert (Heq : MissingKeys src fields =
                filter (fun v => match mapGet v src with
                                 | Some _ => false
                                 | None => true
                                 end) fields)
    by (unfold MissingKeys; now rewrite MissingKeys_fold).
  split; [exact Heq|]. rewrite Heq. split.
  - intros k. rewrite filter_In. destruct (mapGet k src); intuition discriminate.
  - split.
    + intros Hnil k Hin Hnone.
      assert (Hk : In k (filter (fun v => match mapGet v src with
                                          | Some _ => false
                                          | None => true
                                          end) fields))
        by (apply filter_In; now rewrite Hnone).
      rewrite Hnil in Hk. contradiction.
    + intros H. induction fields as [|v fields IH]; [reflexivity|]. simpl.
      destruct (mapGet v src) eqn:E.
      * apply IH.
        -- unfold MissingKeys. now rewrite MissingKeys_fold.
        -- intros k Hin. apply H. now right.
      * now destruct (H v (or_introl eq_refl)).
Qed.

(** ** When [Translate] succeeds *)

Lemma rangeOver_Next_In {X St Ret : Type}
    (body : St -> X -> iteration St Ret) (xs : list X) (s s' : St) :
  rangeOver body xs s = Next s' ->
  forall x, In x xs -> exists s1 s2, body s1 x = Next s2.
Proof.
  revert s. induction xs as [|x0 xs IH]; intros s; cbn [rangeOver];
    [intros _ x []|].
  destruct (body s x0) as [s1|r] eqn:E; [|discriminate].
  intros H x [<-|Hin]; [now exists s, s1|exact (IH _ H x Hin)].
Qed.

Lemma rangeOver_steps_Next {X St Ret : Type}
    (body : St -> X -> iteration St Ret) (xs : list X) :
  (forall x, In x xs -> forall s, exists s', body s x = Next s') ->
  forall s, exists s', rangeOver body xs s = Next s'.
Proof.
  induction xs as [|x xs IH]; intros H s; cbn [rangeOver]; [now exists s|].
  destruct (H x (or_introl eq_refl) s) as [s1 ->].
  apply IH. intros x' Hx'. apply H. now right.
Qed.

Section Success.
Variable TrimSpace : string -> string.
Variable Sprintf : string -> list fmtArg -> string.
Variable Decode : Value -> error + list Record.

Abbreviation Translate := (Translate TrimSpace Sprintf Decode).
Abbreviation translateField := (translateField TrimSpace Sprintf Decode).
Abbreviation checkMandatory := (checkMandatory Sprintf).
Abbreviation insertMissing := (insertMissing Sprintf).
Abbreviation stored := (stored TrimSpace Decode).

(** A field for which the entry produces a value is stored. *)
Lemma stored_Next (src : Record) (description : list (string * Entry))
    (k : string) (v w : Value) (e : Entry) (r : Record) :
  mapGet k description = Some e ->
  stored Translate v e w ->
  exists r', translateField Translate src description r (k, v) = Next r'.
Proof.
  intros Hget Hst. destruct e as [sc|md|o]; [| |contradiction].
  - destruct Hst as (s & -> & _). unfold translateField. rewrite Hget.
    now eexists.
  - rewrite (@translateField_Description TrimSpace Sprintf Decode Translate src
               description r k v md Hget). cbv zeta.
    destruct Hst as [(Hty & f & Hf & Hfv)
                    |[(Hty & m & trans & -> & HT & _)
                     |(Hty & ms & res & Hdec & HF & _)]]; rewrite Hty.
    + change (Z.eqb CustomTranslation CustomTranslation) with true. cbv iota.
      rewrite Hf, Hfv. now eexists.
    + change (Z.eqb MapTranslation CustomTranslation) with false.
      change (Z.eqb MapTranslation MapTranslation) with true. cbv iota.
      rewrite HT. now eexists.
    + change (Z.eqb MapArrayTranslation CustomTranslation) with false.
      change (Z.eqb MapArrayTranslation MapTranslation) with false.
      change (Z.eqb MapArrayTranslation MapArrayTranslation) with true.
      cbv iota. rewrite Hdec.
      assert (Hall : Forall (fun m => snd (Translate m (SubTranslation md)) = None)
                       ms).
      { clear Hdec. induction HF as [|m r0 ms res Hm _ IH]; constructor;
          [now rewrite Hm|exact IH]. }
      pose proof (@translateElement_loop_Next Translate (SubTranslation md) _ []
                    Hall) as Hloop.
      unfold indexed.
      destruct (rangeOver (translateElement Translate (SubTranslation md))
                  (combine (seq 0 (length ms)) ms) (repeat [] (length ms)))
        as [res'|out] eqn:E; [now eexists|].
      pose proof (eq_trans (eq_sym E) Hloop) as Habs. discriminate Habs.
Qed.

(** X14.  For a description without [ModifyTranslation] and
    [InsertTranslation], [Translate] succeeds exactly when the first loop
    passes (every entry is a string or a [Description], and the key of every
    mandatory one is in the source) and every field of the source that has
    an entry is accepted by it: a string for a rename, a value on which
    [MapFunc] succeeds, a map whose translation succeeds, a value that
    decodes to maps whose translations all succeed. *)
Theorem Translate_succeeds_iff (src : Record)
    (description : list (string * Entry)) :
  withoutHooks description ->
  (snd (Translate src (Some description)) = None <->
   Forall (passesCheck src) description /\
   forall k v e,
     In (k, v) src -> mapGet k description = Some e ->
     exists w, stored Translate v e w).
Proof.
  intros Hno. rewrite Translate_phases. split.
  - destruct (rangeOver (checkMandatory src) description []) as [r1|out] eqn:E1.
    2:{ intros Hout. apply rangeOver_Return_In in E1.
        destruct E1 as (s & x & _ & E1).
        apply checkMandatory_Return_error in E1. now destruct E1. }
    apply checkMandatory_Next in E1. destruct E1 as [-> Hpass].
    destruct (rangeOver (translateField Translate src description) src [])
      as [r2|out] eqn:E2.
    2:{ intros Hout. apply rangeOver_Return_In in E2.
        destruct E2 as (s & x & _ & E2).
        apply translateField_Return_error in E2. now destruct E2. }
    intros _. split; [exact Hpass|]. intros k v e Hin Hget.
    destruct (rangeOver_Next_In _ _ _ E2 _ Hin) as (s1 & s2 & Hstep).
    destruct (@translateField_effect TrimSpace Sprintf Decode src description
                k v Hno) as [(Hnone & _)|[(e' & w & Hget' & Hst & _)|H]].
    + congruence.
    + exists w. congruence.
    + destruct (H s1) as [o Ho]. congruence.
  - intros [Hpass Hfields].
    rewrite (@checkMandatory_passes Sprintf src description [] Hpass).
    destruct (rangeOver_steps_Next (translateField Translate src description)
                src) with (s := ([] : Record)) as [r2 ->].
    + intros [k v] Hin s.
      destruct (mapGet k description) as [e|] eqn:Hget.
      * destruct (Hfields k v e Hin Hget) as [w Hw].
        exact (@stored_Next src description k v w e s Hget Hw).
      * exists s. unfold translateField. now rewrite Hget.
    + now rewrite (@insertMissing_withoutHooks Sprintf Decode src description r2
                     Hno Hpass).
Qed.

End Success.

(** * The further properties at the scenarios of the tests *)

Example TestIdMapTranslation :
  TranslateGo idMapSrc (Some idMapDescr) =
  (Some [("a1", VString "foo"); ("g1", VMap [("a", VString "b")])], None).
Proof. reflexivity. Qed.

Example TestIdentifier :
  IdentifierMap trimSpaceASCII sprintfVerbatim (VString "Hello0World") =
    (VString "Hello0World", None) /\
  snd (IdentifierMap trimSpaceASCII sprintfVerbatim (VString "a$")) <> None.
Proof. split; [reflexivity|discriminate]. Qed.

Example TestBoolToStringMap :
  map (fun v => fst (BoolToStrMap sprintfVerbatim parseBoolGo v))
    [VString "T"; VBool false; VString "F"; VBool true; VString "False";
     VString "True"] =
  map VString ["True"; "False"; "False"; "True"; "False"; "True"].
Proof. reflexivity. Qed.

Example TestMissingValues :
  MissingKeys [("a1", VInt 1); ("b1", VInt 2)] ["b1"; "c"; "d"] = ["c"; "d"].
Proof. reflexivity. Qed.

Lemma idMapDescr_withoutHooks : withoutHooks idMapDescr.
Proof.
  repeat constructor; simpl; discriminate.
Defined.

Lemma idMapDescr_targets : NoDup (map targetOf idMapDescr).
Proof.
  repeat constructor; simpl; intuition discriminate.
Defined.

Lemma idMapSrc_uniqueKeys : uniqueKeys idMapSrc.
Proof.
  repeat constructor; simpl; intuition discriminate.
Defined.

(** X3 at [TestMapMap]: the source ranged over in both orders. *)
Lemma IsSimilar_source_order_witness :
  Permutation mapMapSrc (rev mapMapSrc) /\
  fst (IsSimilarGo mapMapSrc [("a1", VString "foo")] mapMapDescr) =
  fst (IsSimilarGo (rev mapMapSrc) [("a1", VString "foo")] mapMapDescr).
Proof.
  split; [apply perm_swap|].
  apply (@IsSimilar_source_order sprintfVerbatim decodeMaps).
  apply perm_swap.
Defined.

(** X4 at the rename of a value that is not a string. *)
Lemma Translate_map_or_error_witness :
  TranslateGo [("A1", VInt 1)] (Some [("A1", EString "a1")]) =
    (Some [], Some (InvalidPropertyError "A1" "invalid type %T for %v")) /\
  exists result attr value target reason,
    Some ([] : Record) = Some result /\
    Some (InvalidPropertyError "A1" "invalid type %T for %v") =
      Some (InvalidPropertyError attr reason) /\
    In (attr, value) [("A1", VInt 1)] /\
    mapGet attr [("A1", EString "a1")] = Some (EString target) /\
    (forall s, value <> VString s).
Proof.
  split; [reflexivity|].
  destruct (@Translate_map_or_error trimSpaceASCII sprintfVerbatim decodeMaps
              [("A1", VInt 1)] (Some [("A1", EString "a1")]) _ _ eq_refl)
    as [(r & _ & He)|[(Hm & _)|H]].
  - discriminate He.
  - discriminate Hm.
  - exact H.
Defined.

(** X6 at [TestMandatoryOption], the description ranged over in both
    orders. *)
Lemma mandatory_check_any_order_witness :
  Permutation mandatoryDescr (rev mandatoryDescr) /\
  (rangeOver (checkMandatory sprintfVerbatim mandatorySrc) mandatoryDescr [] =
     Next [] <->
   rangeOver (checkMandatory sprintfVerbatim mandatorySrc)
     (rev mandatoryDescr) [] = Next []).
Proof.
  split; [apply perm_swap|].
  apply (@mandatory_check_any_order sprintfVerbatim mandatorySrc mandatoryDescr
           (rev mandatoryDescr)).
  apply perm_swap.
Defined.

(** X7 at [TestIdMapTranslation]. *)
Lemma Translate_description_order_witness :
  TranslateGo idMapSrc (Some idMapDescr) =
  TranslateGo idMapSrc (Some (rev idMapDescr)).
Proof.
  apply (@Translate_description_order trimSpaceASCII sprintfVerbatim decodeMaps).
  - repeat constructor; simpl; intuition discriminate.
  - apply perm_swap.
  - repeat constructor; simpl; discriminate.
  - repeat constructor; simpl; discriminate.
Defined.

(** X8 at [TestIdMapTranslation]. *)
Lemma Translate_stores_what_entries_produce_witness :
  let result := [("a1", VString "foo"); ("g1", VMap [("a", VString "b")])] in
  (forall k v e,
      In (k, v) idMapSrc -> mapGet k idMapDescr = Some e ->
      exists w, stored trimSpaceASCII decodeMaps TranslateGo v e w /\
                mapGet (targetOf (k, e)) result = Some w) /\
  (forall t w,
      mapGet t result = Some w ->
      exists k v e,
        In (k, v) idMapSrc /\ mapGet k idMapDescr = Some e /\
        targetOf (k, e) = t /\
        stored trimSpaceASCII decodeMaps TranslateGo v e w).
Proof.
  exact (@Translate_stores_what_entries_produce trimSpaceASCII sprintfVerbatim
           decodeMaps idMapSrc _ idMapDescr idMapDescr_withoutHooks
           idMapDescr_targets idMapSrc_uniqueKeys eq_refl).
Defined.

(** X9 at [TestIdMapTranslation], the source ranged over in both orders. *)
Lemma Translate_source_order_witness :
  exists result',
    TranslateGo (rev idMapSrc) (Some idMapDescr) = (Some result', None) /\
    sameContent [("a1", VString "foo"); ("g1", VMap [("a", VString "b")])]
      result'.
Proof.
  apply (@Translate_source_order trimSpaceASCII sprintfVerbatim decodeMaps
           idMapSrc (rev idMapSrc) _ idMapDescr idMapDescr_withoutHooks
           idMapDescr_targets idMapSrc_uniqueKeys).
  - apply perm_swap.
  - reflexivity.
Defined.

(** X10 at the UUID of [TestUUID]. *)
Lemma UUIDMap_accepts_only_prefix_witness :
  exists u rest,
    canonicalUUID u /\
    trimSpaceASCII "fc62e0eb-7969-5c24-b83f-955bf7f4ad0b" = (u ++ rest)%string.
Proof.
  exact (proj2 (@UUIDMap_accepts_only_prefix trimSpaceASCII sprintfVerbatim
                  "fc62e0eb-7969-5c24-b83f-955bf7f4ad0b" _ eq_refl)).
Defined.

(** X14 at [TestIdMapTranslation]. *)
Lemma Translate_succeeds_iff_witness :
  snd (TranslateGo idMapSrc (Some idMapDescr)) = None <->
  Forall (passesCheck idMapSrc) idMapDescr /\
  forall k v e,
    In (k, v) idMapSrc -> mapGet k idMapDescr = Some e ->
    exists w, stored trimSpaceASCII decodeMaps TranslateGo v e w.
Proof.
  exact (@Translate_succeeds_iff trimSpaceASCII sprintfVerbatim decodeMaps
           idMapSrc idMapDescr idMapDescr_withoutHooks).
Defined.
